(** * ctsm: the argument parser, the template utilities, the confirmation
      prompt, the git identity lookup and the generated manifest

    A shallow embedding of [src/args.ts] (class [Flags], function [parse]),
    [src/util.ts] ([confirm], [json], [code]), [src/git.ts] ([getGitUser])
    and of the manifest object built in [src/index.ts].

    Strings.  A JavaScript string is a sequence of UTF-16 code units.  The
    embedding uses [string], whose characters are the 256 code units below
    U+0100 (Latin-1).  On that range the primitives used by the program are
    closed and are written out exactly: white space is the ECMAScript
    WhiteSpace and LineTerminator set restricted to the range, and
    [toLowerCase] is the Unicode simple lowercase mapping. *)

From Stdlib Require Import ZArith Ascii String DecimalString.
From stdpp Require Import gmap strings list.

Local Open Scope string_scope.

(** ** The JavaScript runtime primitives the program calls *)

Module JS.

Definition chr (n : nat) : ascii := ascii_of_nat n.

Definition LF : ascii := chr 10.
Definition TAB : ascii := chr 9.
Definition DQUOTE : ascii := chr 34.
Definition BACKSLASH : ascii := chr 92.

(** One-character string. *)
Definition str (c : ascii) : string := String c "".

(** [\s], and the characters removed by [trim], [trimStart], [trimEnd]:
    TAB, LF, VT, FF, CR, SPACE and NBSP. *)
Definition isWhiteSpace (c : ascii) : bool :=
  let n := nat_of_ascii c in
  (n =? 9)%nat || (n =? 10)%nat || (n =? 11)%nat || (n =? 12)%nat
  || (n =? 13)%nat || (n =? 32)%nat || (n =? 160)%nat.

(** [s === ''] *)
Definition isEmpty (s : string) : bool :=
  match s with "" => true | String _ _ => false end.

(** [s.startsWith(p)] *)
Fixpoint startsWith (p s : string) : bool :=
  match p, s with
  | "", _ => true
  | String _ _, "" => false
  | String a p', String b s' => bool_decide (a = b) && startsWith p' s'
  end.

(** [s.slice(n)] for a non-negative [n]: the string without its first [n]
    code units, empty when [n] reaches the length. *)
Fixpoint slice (n : nat) (s : string) : string :=
  match n, s with
  | O, _ => s
  | S _, "" => ""
  | S n', String _ s' => slice n' s'
  end.

(** [s.trimStart()] *)
Fixpoint trimStart (s : string) : string :=
  match s with
  | "" => ""
  | String c s' => if isWhiteSpace c then trimStart s' else s
  end.

(** [s.trimEnd()] *)
Fixpoint trimEnd (s : string) : string :=
  match s with
  | "" => ""
  | String c s' =>
      let t := trimEnd s' in
      if isWhiteSpace c && isEmpty t then "" else String c t
  end.

(** [s.trim()] *)
Definition trim (s : string) : string := trimEnd (trimStart s).

(** [s.match(/^\s*/)[0]]: the leading run of white space.  The pattern
    matches the empty string, so the match never fails. *)
Fixpoint leadingWhiteSpace (s : string) : string :=
  match s with
  | "" => ""
  | String c s' => if isWhiteSpace c then String c (leadingWhiteSpace s') else ""
  end.

Definition lowerChar (c : ascii) : ascii :=
  let n := nat_of_ascii c in
  if ((65 <=? n) && (n <=? 90))%nat then chr (n + 32)
  else if ((192 <=? n) && (n <=? 222) && negb (n =? 215))%nat then chr (n + 32)
  else c.

(** [s.toLowerCase()] *)
Fixpoint toLowerCase (s : string) : string :=
  match s with
  | "" => ""
  | String c s' => String (lowerChar c) (toLowerCase s')
  end.

(** [s.split(sep)] for a separator of one character, the only kind the
    program uses.  The result is never empty: [''.split(sep)] is [['']]. *)
Fixpoint split (sep : ascii) (s : string) : list string :=
  match s with
  | "" => [""]
  | String c s' =>
      if decide (c = sep) then "" :: split sep s'
      else match split sep s' with
           | [] => [str c]
           | h :: t => String c h :: t
           end
  end.

(** [a.join(sep)] *)
Fixpoint join (sep : string) (a : list string) : string :=
  match a with
  | [] => ""
  | [x] => x
  | x :: a' => x ++ sep ++ join sep a'
  end.

(** [a.findIndex(p)]: the first index whose element satisfies [p], or -1. *)
Fixpoint findIndex {A} (p : A → bool) (a : list A) : Z :=
  match a with
  | [] => (-1)%Z
  | x :: a' =>
      if p x then 0%Z
      else let i := findIndex p a' in
           if (i <? 0)%Z then (-1)%Z else (i + 1)%Z
  end.

(** [a.slice(start)]: a negative [start] counts from the end and is
    clamped at 0. *)
Definition arraySlice {A} (start : Z) (a : list A) : list A :=
  let len := Z.of_nat (length a) in
  let k := if (start <? 0)%Z then Z.max (len + start) 0 else Z.min start len in
  drop (Z.to_nat k) a.

(** [s.replace(pat, rep)] with a string pattern and a replacement free of
    [$]: the first occurrence of [pat] is replaced. *)
Fixpoint replace (pat rep s : string) : string :=
  if startsWith pat s then rep ++ slice (String.length pat) s
  else match s with
       | "" => ""
       | String c s' => String c (replace pat rep s')
       end.

(** [value ?? dflt] *)
Definition nullish {A} (value : option A) (dflt : A) : A :=
  match value with Some v => v | None => dflt end.

(** *** [JSON.stringify(value, null, gap)]

    Values are the JSON-like values the program serializes: [undefined],
    [null], booleans, numbers, strings, arrays and plain objects.  A number
    is a safe integer (magnitude at most 2^53 - 1), which JavaScript holds
    exactly and prints in plain decimal; an object lists its own enumerable
    string-keyed properties in property order.  Functions, symbols, BigInt
    values, cyclic objects and objects with a [toJSON] method are not
    represented: the program serializes none. *)
#[local] Set Warnings "-register-all".
Inductive Value : Type :=
| Undefined
| Null
| Boolean (b : bool)
| Number (n : Z)
| Str (s : string)
| Array (elements : list Value)
| Object (properties : list (string * Value)).

Definition hexDigit (n : nat) : ascii :=
  if (n <? 10)%nat then chr (48 + n) else chr (87 + n).

(** QuoteJSONString, one code unit. *)
Definition quoteChar (c : ascii) : string :=
  let n := nat_of_ascii c in
  if (n =? 8)%nat then "\b"
  else if (n =? 9)%nat then "\t"
  else if (n =? 10)%nat then "\n"
  else if (n =? 12)%nat then "\f"
  else if (n =? 13)%nat then "\r"
  else if (n =? 34)%nat then String BACKSLASH (str DQUOTE)
  else if (n =? 92)%nat then String BACKSLASH (str BACKSLASH)
  else if (n <? 32)%nat then
    "\u00" ++ String (hexDigit (n / 16)) (str (hexDigit (n mod 16)))
  else str c.

Fixpoint quoteBody (s : string) : string :=
  match s with
  | "" => ""
  | String c s' => quoteChar c ++ quoteBody s'
  end.

Definition quoteJSONString (s : string) : string :=
  String DQUOTE (quoteBody s ++ str DQUOTE).

Definition numberToString (n : Z) : string :=
  NilZero.string_of_int (Z.to_int n).

(** SerializeJSONProperty with a non-empty [gap]; [indent] is the current
    indentation.  [None] is JavaScript's [undefined]: such a property is
    left out of an object and printed as [null] in an array. *)
Fixpoint serializeJSONProperty (gap indent : string) (v : Value) : option string :=
  match v with
  | Undefined => None
  | Null => Some "null"
  | Boolean true => Some "true"
  | Boolean false => Some "false"
  | Number n => Some (numberToString n)
  | Str s => Some (quoteJSONString s)
  | Array elements =>
      let stepback := indent in
      let indent := indent ++ gap in
      let partial :=
        map (λ e, nullish (serializeJSONProperty gap indent e) "null") elements in
      match partial with
      | [] => Some "[]"
      | _ =>
          let separator := "," ++ str LF ++ indent in
          Some ("[" ++ str LF ++ indent ++ join separator partial
                    ++ str LF ++ stepback ++ "]")
      end
  | Object properties =>
      let stepback := indent in
      let indent := indent ++ gap in
      let partial :=
        omap (λ kv, match serializeJSONProperty gap indent (snd kv) with
                    | Some strP => Some (quoteJSONString (fst kv) ++ ": " ++ strP)
                    | None => None
                    end) properties in
      match partial with
      | [] => Some "{}"
      | _ =>
          let separator := "," ++ str LF ++ indent in
          Some ("{" ++ str LF ++ indent ++ join separator partial
                    ++ str LF ++ stepback ++ "}")
      end
  end.

Definition stringify (value : Value) (gap : string) : option string :=
  serializeJSONProperty gap "" value.

(** [Object.fromEntries(entries)] for string values: a later entry
    overwrites an earlier one of the same key. *)
Definition fromEntries (entries : list (string * string)) : gmap string string :=
  foldl (λ o kv, <[kv.1 := kv.2]> o) ∅ entries.

End JS.

(** ** [src/util.ts] *)

Module Util.
Import JS.

(** The controlling terminal as [readline] sees it: the lines still to be
    read and the prompts written so far. *)
Record Terminal := { input : list string; output : list string }.

(** [await i.question(message)]: writes the prompt and resolves with the
    next input line, without its line terminator.  [None]: the input has
    ended and the promise never resolves. *)
Definition question (message : string) (t : Terminal) : option (string * Terminal) :=
  match input t with
  | [] => None
  | answer :: rest => Some (answer, {| input := rest; output := (output t ++ [message])%list |})
  end.

Record ConfirmOptions := { acceptDefault : bool }.

Definition confirm (message : string) (options : ConfirmOptions) (t : Terminal)
  : option (bool * Terminal) :=
  match question message t with
  | None => None
  | Some (answer, t') =>
      if acceptDefault options && isEmpty answer then Some (true, t')
      else Some (startsWith "y" (toLowerCase answer), t')
  end.

Definition json (value : Value) : option string := stringify value (str TAB).

(** The argument of a template function: a plain string (call syntax) or
    the strings of a template literal (tag syntax). *)
Inductive TemplateArg :=
| Plain (s : string)
| Strings (strings : list string).

Coercion Plain : string >-> TemplateArg.

Definition getTemplateStrings (strings : TemplateArg) : list string :=
  match strings with
  | Plain s => [s]
  | Strings a => a
  end.

(** The interpolated values are handed to [cb] as well; the callback of
    [code] takes the strings only, so they are left out. *)
Definition taggedTemplateFunction (cb : list string → string) (strings : TemplateArg) : string :=
  cb (getTemplateStrings strings).

(** [lines[0]!] is read with [nth 0 lines ""]: [lines] is never empty
    (lemma [code_lines_nonempty] below). *)
Definition code : TemplateArg → string :=
  taggedTemplateFunction (λ strings,
    let allLines := split LF (trimEnd (join "" strings)) in
    let indexOfFirstNonEmptyLine :=
      findIndex (λ line, negb (isEmpty (trim line))) allLines in
    let lines := arraySlice indexOfFirstNonEmptyLine allLines in
    let indent := leadingWhiteSpace (nth 0 lines "") in
    join (str LF) (map (λ line, slice (String.length indent) line) lines)).

(** What is handed to [die]: nothing, one string, or an array of lines. *)
Inductive Messages :=
| NoMessages
| OneMessage (s : string)
| ManyMessages (lines : list string).

(** [if (messages)]: [undefined] and [''] are falsy, every array is
    truthy. *)
Definition messagesTruthy (messages : Messages) : bool :=
  match messages with
  | NoMessages => false
  | OneMessage s => negb (isEmpty s)
  | ManyMessages _ => true
  end.

(** [die(messages, code)] on the records written to the error stream so
    far: the records after the call, and the exit code of the process.
    [red] is [ansi.red], the value of
    [Bun.color({r: 255, g: 0, b: 0}, 'ansi-16m')], a constant of the
    runtime; [code] is [None] when the argument is left out. *)
Definition die (red : string) (messages : Messages) (code : option Z)
    (stderr : list string) : list string * Z :=
  let code := nullish code 1%Z in
  if messagesTruthy messages then
    let string :=
      match messages with
      | ManyMessages lines => join (str LF) lines
      | OneMessage s => s
      | NoMessages => ""
      end in
    ((stderr ++ [(red ++ string)%string])%list, code)
  else (stderr, code).

(** How an awaited call ends: it returns, or the process exits. *)
Inductive Settled (A : Type) : Type :=
| Fulfilled (a : A)
| ProcessExit (code : Z).
Arguments Fulfilled {A} a.
Arguments ProcessExit {A} code.

(** [confirmOrDie(message, options)]: the way it ends, the terminal and the
    error stream after it.  [None]: the answer never comes. *)
Definition confirmOrDie (red message : string) (options : ConfirmOptions)
    (t : Terminal) (stderr : list string)
  : option (Settled unit * Terminal * list string) :=
  match confirm message options t with
  | None => None
  | Some (result, t') =>
      if negb result then
        let '(stderr', code) := die red NoMessages None stderr in
        Some (ProcessExit code, t', stderr')
      else Some (Fulfilled (), t', stderr)
  end.

End Util.

(** ** [src/args.ts] *)

(** A thrown [Error] with its message, or a returned value. *)
Inductive Result (A : Type) : Type :=
| Return (a : A)
| Throw (message : string).
Arguments Return {A} a.
Arguments Throw {A} message.

Inductive FlagValue :=
| FString (s : string)
| FBoolean (b : bool).

(** ** [src/util.ts], continued: [flagIsElse], which reads a flag value *)

Module UtilFlags.

(** [flagIsElse(value, options, elseValue)] with string options: the value
    itself ([inl]) or [elseValue] ([inr]).  [None] is [undefined]. *)
Definition flagIsElse {Else : Type} (value : option FlagValue) (options : list string)
    (elseValue : Else) : string + Else :=
  match value with
  | Some (FString s) => if bool_decide (s ∈ options) then inl s else inr elseValue
  | _ => inr elseValue
  end.

End UtilFlags.

Module Flags.

Record t := mk { map : gmap string FlagValue }.

Definition new : t := mk ∅.

Definition set (key : string) (value : FlagValue) (flags : t) : t :=
  mk (<[key := value]> (map flags)).

Definition size (flags : t) : nat := base.size (map flags).

Definition getBooleanOrThrow (key : string) (flags : t) : Result bool :=
  match map flags !! key with
  | None => Throw ("Missing required flag: " ++ key)
  | Some (FString _) => Throw ("Flag " ++ key ++ " is not a boolean")
  | Some (FBoolean b) => Return b
  end.

Definition getStringOrThrow (key : string) (flags : t) : Result string :=
  match map flags !! key with
  | None => Throw ("Missing required flag: " ++ key)
  | Some (FBoolean _) => Throw ("Flag " ++ key ++ " is not a string")
  | Some (FString s) => Return s
  end.

Definition getBooleanOrDefault (key : string) (defaultValue : bool) (flags : t) : Result bool :=
  match map flags !! key with
  | None => Return defaultValue
  | Some (FString _) => Throw ("Flag " ++ key ++ " is not a boolean")
  | Some (FBoolean b) => Return b
  end.

Definition getStringOrDefault (key : string) (defaultValue : string) (flags : t) : Result string :=
  match map flags !! key with
  | None => Return defaultValue
  | Some (FBoolean _) => Throw ("Flag " ++ key ++ " is not a string")
  | Some (FString s) => Return s
  end.

Definition getStringAsOptionOrThrow (key : string) (options : list string) (flags : t)
  : Result string :=
  match getStringOrThrow key flags with
  | Throw e => Throw e
  | Return value =>
      if bool_decide (value ∈ options) then Return value
      else Throw ("Flag " ++ key ++ " is not a valid option")
  end.

Definition getStringAsOptionOrDefault (key : string) (options : list string)
    (defaultValue : string) (flags : t) : Result string :=
  match getStringOrDefault key defaultValue flags with
  | Throw e => Throw e
  | Return value =>
      if bool_decide (value ∈ options) then Return value else Return defaultValue
  end.

End Flags.

Module Args.
Import JS.

(** The body of the [for] loop of [parse]: one token, on the flags and the
    positional arguments collected so far.  [continue] leaves both as they
    are. *)
Definition parseArg (state : Flags.t * list string) (arg : string) : Flags.t * list string :=
  let '(flags, args) := state in
  if startsWith "--" arg then
    let parts := split "=" (slice 2 arg) in
    let key := parts !! 0%nat in
    let value := parts !! 1%nat in
    match key with
    | None | Some "" => (flags, args)
    | Some key => (Flags.set key (nullish (FString <$> value) (FBoolean true)) flags, args)
    end
  else if startsWith "-" arg then
    let parts := split "=" (slice 1 arg) in
    let key := parts !! 0%nat in
    let value := parts !! 1%nat in
    match key with
    | None | Some "" => (flags, args)
    | Some key => (Flags.set key (nullish (FString <$> value) (FBoolean true)) flags, args)
    end
  else (flags, (args ++ [arg])%list).

Definition parse (argv : list string) : Flags.t * list string :=
  foldl parseArg (Flags.new, []) argv.

End Args.

(** ** [src/git.ts] *)

Module Git.
Import JS.

(** What a finished shell command leaves behind. *)
Record ShellOutput := { stdout : string; exitCode : Z }.

(** [await $`...`.nothrow().text()]: the standard output, whatever the
    exit code. *)
Definition nothrowText (o : ShellOutput) : string := stdout o.

(** [getGitUser] on the outcome of [git config --get-regexp user.].
    [key!] is read with [nth 0 _ ""]: [split] never returns an empty
    array. *)
Definition getGitUser (gitConfig : ShellOutput) : gmap string string :=
  let text := nothrowText gitConfig in
  let map :=
    map (λ line,
           let parts := split " " line in
           let key := nth 0 parts "" in
           let value := tail parts in
           (replace "user." "" key, join " " value))
        (split LF (trim text)) in
  fromEntries map.

End Git.

(** ** [src/index.ts]: the package manager and the manifest *)

Module Index.
Import JS.

Definition packageManagers : list string := ["bun"; "npm"; "yarn"; "pnpm"].

Definition SKIP_CONFIRMATION (flags : Flags.t) : Result bool :=
  Flags.getBooleanOrDefault "y" false flags.

Definition PACKAGE_MANAGER (flags : Flags.t) : Result string :=
  Flags.getStringAsOptionOrDefault "p" packageManagers "bun" flags.

(** [s ? ... : ...] on an optional string: [undefined] and [''] are falsy. *)
Definition truthy (s : option string) : bool :=
  match s with
  | None | Some "" => false
  | Some _ => true
  end.

Definition optional (s : option string) : Value :=
  match s with
  | None => Undefined
  | Some v => Str v
  end.

(** The object handed to [json<PackageJSON>] under ['package.json']. *)
Definition packageJson (moduleName : string) (user : gmap string string)
    (PACKAGE_MANAGER : string) : Value :=
  Object [
    ("name", Str moduleName);
    ("version", Str "0.0.1");
    ("description", Str "Description");
    ("keywords", Array []);
    ("author",
      if truthy (user !! "name")
      then Object [("name", optional (user !! "name")); ("email", optional (user !! "email"))]
      else Undefined);
    ("license", Str "MIT");
    ("type", Str "module");
    ("scripts", Object [
      ("build",
        Str (if decide (PACKAGE_MANAGER = "npm") then "npx tsup"
             else PACKAGE_MANAGER ++ " tsup"));
      ("release",
        Str (PACKAGE_MANAGER ++ " run build && " ++ PACKAGE_MANAGER ++ " publish"))
    ]);
    ("exports", Object [
      ("./package.json", Str "./package.json");
      (".", Object [
        ("import", Str "./dist/index.js");
        ("require", Str "./dist/index.cjs")
      ])
    ]);
    ("files", Array [Str "LICENSE"; Str "README.md"; Str "dist"])
  ].

(** [const [directoryName = probablyIsThisProject ? cwd : null] = args]:
    the default is taken when there is no first positional argument.
    [None] is [null]. *)
Definition directoryName (probablyIsThisProject : bool) (cwd : string)
    (args : list string) : option string :=
  match args !! 0%nat with
  | Some name => Some name
  | None => if probablyIsThisProject then Some cwd else None
  end.

(** How the script stands when the directory name has been checked: an
    accessor threw, [die] ended the process, or the script goes on. *)
Inductive Startup :=
| Threw (message : string)
| Died (stderr : list string) (code : Z)
| Ready (directoryName : string) (SKIP_CONFIRMATION : bool) (PACKAGE_MANAGER : string).

(** The script from its start to the end of [if (!directoryName)].
    [red] is [ansi.red], [binName] is [getBinName()], that is
    [process.argv[1]], [probablyIsThisProject] is the result of
    [isDirectoryEmpty(cwd)], and [argv] is [process.argv.slice(2)]. *)
Definition startup (red binName cwd : string) (probablyIsThisProject : bool)
    (argv : list string) : Startup :=
  let '(flags, args) := Args.parse argv in
  let directoryName := directoryName probablyIsThisProject cwd args in
  match SKIP_CONFIRMATION flags with
  | Throw e => Threw e
  | Return SKIP_CONFIRMATION =>
      match PACKAGE_MANAGER flags with
      | Throw e => Threw e
      | Return PACKAGE_MANAGER =>
          if truthy directoryName then
            Ready (nullish directoryName "") SKIP_CONFIRMATION PACKAGE_MANAGER
          else if probablyIsThisProject then
            let '(stderr, code) :=
              Util.die red (Util.OneMessage "Error: Expected this folder to have a name")
                None [] in
            Died stderr code
          else
            let '(stderr, code) :=
              Util.die red (Util.ManyMessages [
                "";
                "You ran CTSM in a folder that was not already empty!";
                "You must specify a name of the package to create it";
                "";
                "Example: `" ++ binName ++ " my-awesome-library`";
                ""
              ]) None [] in
            Died stderr code
      end
  end.

End Index.

Import JS Util UtilFlags Args Git Index.

(** ** Vocabulary of the statements *)

(** [occurs c s]: the character [c] occurs in [s] (in JavaScript,
    [s.includes(c)]). *)
Fixpoint occurs (c : ascii) (s : string) : bool :=
  match s with
  | "" => false
  | String d s' => bool_decide (d = c) || occurs c s'
  end.

(** The lines [code] works on, its [allLines]: the text without its
    trailing white space, cut at the line feeds. *)
Definition allLines (strings : TemplateArg) : list string :=
  split LF (trimEnd (join "" (getTemplateStrings strings))).

(** A line is blank when the test of [findIndex] in [code] fails on it. *)
Definition isBlank (line : string) : Prop := trim line = "".

(** What is left of a flag token after its dashes; [None] for a positional
    argument.  Read off the two tests of [parse]. *)
Definition flagBody (arg : string) : option string :=
  if startsWith "--" arg then Some (slice 2 arg)
  else if startsWith "-" arg then Some (slice 1 arg)
  else None.

(** The key of a flag token, [key] in [parse]: the piece of its body before
    the first [=]. *)
Definition flagKey (arg : string) : option string :=
  body ← flagBody arg; split "=" body !! 0%nat.

(** The value a flag token sets, [value ?? true] in [parse]. *)
Definition flagValue (arg : string) : option FlagValue :=
  body ← flagBody arg;
  Some (nullish (FString <$> split "=" body !! 1%nat) (FBoolean true)).

(** What [parse] stores: a string, or [true]. *)
Definition stringOrTrue (v : FlagValue) : Prop :=
  match v with
  | FString _ => True
  | FBoolean b => b = true
  end.

(** [startsLine x text]: in [text], [x] comes right after a line feed. *)
Definition startsLine (x text : string) : Prop :=
  ∃ before after, text = before ++ String LF (x ++ after).

(** The decision of [confirm] in the words of the specification: the answer
    is trimmed before it is lowercased and tested.  For comparison with
    [confirm]. *)
Definition confirmAsSpecified (options : ConfirmOptions) (answer : string) : bool :=
  if acceptDefault options && isEmpty answer then true
  else startsWith "y" (toLowerCase (trim answer)).

(** * Properties *)

(** ** Strings and arrays *)

Lemma split_nonempty (sep : ascii) (s : string) : split sep s ≠ [].
Proof.
  destruct s as [|c s]; simpl; [done|].
  case_decide; [done|]. by destruct (split sep s).
Qed.

(** Case analysis on the pieces of a split: there is always a first one. *)
Tactic Notation "split_pieces" constr(sep) constr(s) "as" ident(h) ident(tl) ident(E) :=
  destruct (split sep s) as [|h tl] eqn:E; [by apply split_nonempty in E|].

Section StringFacts.

Implicit Types (s t : string) (c sep : ascii) (a : list string).

Lemma isEmpty_true s : isEmpty s = true ↔ s = "".
Proof. destruct s; simpl; split; congruence. Qed.

Lemma isEmpty_false s : isEmpty s = false ↔ s ≠ "".
Proof. destruct s; simpl; split; congruence. Qed.

Lemma map_slice_0 a : map (slice 0) a = a.
Proof.
  induction a as [|x a IH]; [done|].
  change (map (slice 0) (x :: a)) with (slice 0 x :: map (slice 0) a).
  by rewrite IH.
Qed.

Lemma split_cons_ne sep c s :
  c ≠ sep → ∃ h tl, split sep s = h :: tl ∧ split sep (String c s) = String c h :: tl.
Proof.
  intros Hc. simpl. rewrite decide_False by done.
  split_pieces sep s as h tl E. by exists h, tl.
Qed.

(** Joining the pieces of a split with the separator gives the string
    back. *)
Lemma join_split sep s : join (str sep) (split sep s) = s.
Proof.
  induction s as [|c s IH]; simpl; [done|].
  case_decide as Hc.
  - subst c. split_pieces sep s as h tl E. simpl in *. by rewrite IH.
  - split_pieces sep s as h tl E. rewrite <- IH. by destruct tl.
Qed.

Lemma trimStart_shape s :
  trimStart s = "" ∨ ∃ c r, trimStart s = String c r ∧ isWhiteSpace c = false.
Proof.
  induction s as [|c s IH]; simpl; [by left|].
  destruct (isWhiteSpace c) eqn:E; [done|]. right. by exists c, s.
Qed.

(** Cutting a line after its leading white space is [trimStart]. *)
Lemma slice_leadingWhiteSpace s :
  slice (String.length (leadingWhiteSpace s)) s = trimStart s.
Proof.
  induction s as [|c s IH]; simpl; [done|].
  by destruct (isWhiteSpace c).
Qed.

Lemma leadingWhiteSpace_nonws c s :
  isWhiteSpace c = false → leadingWhiteSpace (String c s) = "".
Proof. intros H. simpl. by rewrite H. Qed.

Lemma trimEnd_nonws c s :
  isWhiteSpace c = false → trimEnd (String c s) = String c (trimEnd s).
Proof. intros H. simpl. by rewrite H. Qed.

Lemma trim_nonws c s :
  isWhiteSpace c = false → trim (String c s) = String c (trimEnd s).
Proof. intros H. unfold trim. simpl. rewrite H. simpl. by rewrite H. Qed.

(** A line is blank exactly when nothing is left after its leading white
    space. *)
Lemma trim_empty s : trim s = "" ↔ trimStart s = "".
Proof.
  unfold trim. destruct (trimStart_shape s) as [->|(c & r & -> & Hc)]; [done|].
  by rewrite trimEnd_nonws.
Qed.

Lemma join_cons_String (glue : string) c r a :
  ∃ r', join glue (String c r :: a) = String c r'.
Proof. destruct a; simpl; eauto. Qed.

(** [findIndex] found nothing: no element satisfies the predicate. *)
Lemma findIndex_none {A} (p : A → bool) (l : list A) :
  (findIndex p l < 0)%Z → findIndex p l = (-1)%Z ∧ Forall (λ x, p x = false) l.
Proof.
  induction l as [|x l IH]; simpl; [by split|].
  destruct (p x) eqn:E; [lia|].
  destruct (Z.ltb_spec (findIndex p l) 0) as [Hlt|Hge]; [|lia].
  intros _. split; [done|]. constructor; [done|]. by apply IH.
Qed.

(** [findIndex] found an element: it is the first that satisfies the
    predicate. *)
Lemma findIndex_found {A} (p : A → bool) (l : list A) :
  (0 ≤ findIndex p l)%Z →
  ∃ pre x rest, l = (pre ++ x :: rest)%list ∧ findIndex p l = Z.of_nat (length pre)
                ∧ Forall (λ y, p y = false) pre ∧ p x = true.
Proof.
  induction l as [|x l IH]; simpl; [lia|].
  destruct (p x) eqn:E.
  - intros _. by exists [], x, l.
  - destruct (Z.ltb_spec (findIndex p l) 0) as [Hlt|Hge]; [lia|].
    intros _. destruct (IH Hge) as (pre & y & rest & -> & Hi & Hpre & Hy).
    exists (x :: pre), y, rest. rewrite Hi. simpl.
    repeat split; [lia|by constructor|done].
Qed.

Lemma findIndex_app {A} (p : A → bool) (pre : list A) x rest :
  Forall (λ y, p y = false) pre → p x = true →
  findIndex p (pre ++ x :: rest)%list = Z.of_nat (length pre).
Proof.
  intros Hpre Hx. induction Hpre as [|y pre Hy _ IH]; simpl; [by rewrite Hx|].
  rewrite Hy, IH. destruct (Z.ltb_spec (Z.of_nat (length pre)) 0); lia.
Qed.

Lemma arraySlice_app {A} (pre : list A) x rest :
  arraySlice (Z.of_nat (length pre)) (pre ++ x :: rest)%list = x :: rest.
Proof.
  unfold arraySlice. rewrite length_app. simpl.
  destruct (Z.ltb_spec (Z.of_nat (length pre)) 0); [lia|].
  rewrite Z.min_l by lia. rewrite Nat2Z.id. by rewrite drop_app_length.
Qed.

(** [a.slice(-1)] of a non-empty array is its last element alone. *)
Lemma arraySlice_last {A} (l : list A) :
  l ≠ [] → ∃ x, arraySlice (-1) l = [x] ∧ x ∈ l.
Proof.
  intros Hl. destruct (exists_last Hl) as (l' & x & ->).
  exists x. unfold arraySlice. rewrite length_app. simpl.
  replace (Z.to_nat _) with (length l') by lia.
  rewrite drop_app_length. split; [done|]. set_solver.
Qed.

End StringFacts.

Section SplitFacts.

Implicit Types (s t : string) (c sep : ascii) (a : list string).

Lemma occurs_cons_false c d s :
  occurs c (String d s) = false ↔ d ≠ c ∧ occurs c s = false.
Proof.
  simpl. rewrite orb_false_iff, bool_decide_eq_false. done.
Qed.

Lemma occurs_slice c n s : occurs c s = false → occurs c (slice n s) = false.
Proof.
  revert s. induction n as [|n IH]; intros [|d s]; simpl; try done.
  rewrite orb_false_iff. intros [_ H]. by apply IH.
Qed.

(** The pieces of a split are free of the separator. *)
Lemma split_occurs sep s : Forall (λ x, occurs sep x = false) (split sep s).
Proof.
  induction s as [|c s IH]; simpl; [by repeat constructor|].
  case_decide as Hc; [by constructor|].
  split_pieces sep s as h tl E. inversion_clear IH. constructor; [|done]. by apply occurs_cons_false.
Qed.

(** A string free of the separator is a single piece. *)
Lemma split_whole sep s : occurs sep s = false → split sep s = [s].
Proof.
  induction s as [|c s IH]; [done|].
  rewrite occurs_cons_false. intros [Hc Hs]. simpl.
  by rewrite decide_False, IH.
Qed.

(** The first separator ends the first piece. *)
Lemma split_app sep s t :
  occurs sep s = false → split sep (s ++ String sep t) = s :: split sep t.
Proof.
  induction s as [|c s IH]; simpl.
  - intros _. by rewrite decide_True.
  - rewrite orb_false_iff, bool_decide_eq_false. intros [Hc Hs].
    by rewrite decide_False, IH.
Qed.

(** Splitting at a separator splits the two sides of it. *)
Lemma split_app_sep sep s t :
  split sep (s ++ String sep t) = (split sep s ++ split sep t)%list.
Proof.
  induction s as [|c s IH].
  - change ("" ++ String sep t) with (String sep t). simpl. by rewrite decide_True.
  - change (String c s ++ String sep t) with (String c (s ++ String sep t)).
    simpl. rewrite IH. case_decide; [done|]. by split_pieces sep s as h tl E.
Qed.

(** Splitting what was joined with the separator gives the pieces back,
    when none of them holds the separator. *)
Lemma split_join sep a :
  a ≠ [] → Forall (λ x, occurs sep x = false) a → split sep (join (str sep) a) = a.
Proof.
  intros Ha Hall. induction Hall as [|x a Hx Hall IH]; [done|].
  destruct a as [|y a].
  - simpl. by apply split_whole.
  - change (join (str sep) (x :: y :: a)) with (x ++ String sep (join (str sep) (y :: a))).
    rewrite split_app by done. by rewrite IH.
Qed.

Lemma length_slice n s : String.length (slice n s) = String.length s - n.
Proof.
  revert s. induction n as [|n IH]; intros [|c s]; simpl; first [done | lia].
Qed.

Lemma length_0_empty s : String.length s = 0%nat → s = "".
Proof. by destruct s. Qed.

Lemma length_leadingWhiteSpace s :
  (String.length (leadingWhiteSpace s) ≤ String.length s)%nat.
Proof.
  induction s as [|c s IH]; simpl; [done|].
  destruct (isWhiteSpace c); simpl; lia.
Qed.

(** *** Texts without trailing white space: the fixed points of [trimEnd] *)

Lemma trimEnd_idemp s : trimEnd (trimEnd s) = trimEnd s.
Proof.
  induction s as [|c s IH]; [done|].
  cbn [trimEnd]. destruct (isWhiteSpace c && isEmpty (trimEnd s)) eqn:E; [done|].
  cbn [trimEnd]. by rewrite IH, E.
Qed.

Lemma trimEnd_fixed_tail c s : trimEnd (String c s) = String c s → trimEnd s = s.
Proof.
  cbn [trimEnd]. destruct (isWhiteSpace c && isEmpty (trimEnd s)); [done|].
  by intros [= ->].
Qed.

Lemma trimEnd_fixed_suffix s t : trimEnd (s ++ t) = s ++ t → trimEnd t = t.
Proof.
  induction s as [|c s IH]; [done|].
  intros H. apply IH. by apply (trimEnd_fixed_tail c).
Qed.

Lemma trimEnd_fixed_slice n s : trimEnd s = s → trimEnd (slice n s) = slice n s.
Proof.
  revert s. induction n as [|n IH]; intros [|c s] H; try done.
  apply IH. by apply (trimEnd_fixed_tail c).
Qed.

Lemma trimEnd_fixed_app s t : t ≠ "" → trimEnd t = t → trimEnd (s ++ t) = s ++ t.
Proof.
  intros Ht H. induction s as [|c s IH]; [done|].
  change (String c s ++ t) with (String c (s ++ t)).
  cbn [trimEnd]. rewrite IH.
  assert (isEmpty (s ++ t) = false) as -> by (by destruct s, t).
  by rewrite andb_false_r.
Qed.

Lemma string_app_assoc s t (u : string) : s ++ t ++ u = (s ++ t) ++ u.
Proof.
  induction s as [|c s IH]; [done|].
  change (String c (s ++ t ++ u) = String c ((s ++ t) ++ u)). by rewrite IH.
Qed.

(** The text joined from some lines ends with the last of them. *)
Lemma join_snoc (glue : string) a (x : string) :
  ∃ front, join glue (a ++ [x]) = front ++ x.
Proof.
  induction a as [|y a [front IH]]; [by exists ""|].
  change ((y :: a) ++ [x])%list with (y :: (a ++ [x]))%list.
  destruct (a ++ [x])%list as [|z l] eqn:E; [by destruct a|].
  change (join glue (y :: z :: l)) with (y ++ glue ++ join glue (z :: l)).
  rewrite IH. exists (y ++ glue ++ front).
  by rewrite <- !string_app_assoc.
Qed.

End SplitFacts.

(** ** [code]: the dedent of a text block *)

Section Dedent.

Implicit Types (strings : TemplateArg) (line first : string) (pre rest : list string).

Lemma nonblank_test line : negb (isEmpty (trim line)) = true ↔ ¬ isBlank line.
Proof. unfold isBlank. rewrite negb_true_iff. apply isEmpty_false. Qed.

Lemma blank_test line : negb (isEmpty (trim line)) = false ↔ isBlank line.
Proof. unfold isBlank. rewrite negb_false_iff. apply isEmpty_true. Qed.

(** [lines] is never empty, so [lines[0]] is always defined. *)
Lemma code_lines_nonempty strings :
  arraySlice (findIndex (λ line, negb (isEmpty (trim line))) (allLines strings))
             (allLines strings) ≠ [].
Proof.
  set (p := λ line, negb (isEmpty (trim line))).
  destruct (Z.ltb_spec (findIndex p (allLines strings)) 0) as [Hlt|Hge].
  - apply findIndex_none in Hlt as [-> _].
    destruct (arraySlice_last (allLines strings)) as (x & -> & _); [|done].
    apply split_nonempty.
  - destruct (findIndex_found p _ Hge) as (pre & x & rest & -> & -> & _).
    by rewrite arraySlice_app.
Qed.

(** Some line is not blank: every line from the first such line on loses
    as many leading characters as that line has leading white space. *)
Lemma code_found strings pre first rest :
  allLines strings = (pre ++ first :: rest)%list →
  Forall isBlank pre → ¬ isBlank first →
  code strings =
    join (str LF) (map (slice (String.length (leadingWhiteSpace first))) (first :: rest)).
Proof.
  intros Hlines Hpre Hfirst.
  unfold code, taggedTemplateFunction. fold (allLines strings). rewrite Hlines.
  rewrite findIndex_app.
  - by rewrite arraySlice_app.
  - eapply Forall_impl; [exact Hpre|]. intros l Hl. by apply blank_test.
  - by apply nonblank_test.
Qed.

(** Every line is blank: the result is empty. *)
Lemma code_blank strings : Forall isBlank (allLines strings) → code strings = "".
Proof.
  intros Hall. unfold code, taggedTemplateFunction. fold (allLines strings).
  set (p := λ line, negb (isEmpty (trim line))).
  assert (findIndex p (allLines strings) = (-1)%Z) as ->.
  { destruct (Z.ltb_spec (findIndex p (allLines strings)) 0) as [Hlt|Hge].
    - by apply findIndex_none in Hlt as [-> _].
    - destruct (findIndex_found p _ Hge) as (pre & x & rest & E & _ & _ & Hx).
      rewrite E in Hall. apply Forall_app in Hall as [_ Hall].
      inversion_clear Hall as [|? ? Hb _]. apply blank_test in Hb.
      unfold p in Hx. congruence. }
  destruct (arraySlice_last (allLines strings)) as (x & -> & Hx);
    [apply split_nonempty|].
  rewrite Forall_forall in Hall. apply Hall in Hx.
  simpl. rewrite slice_leadingWhiteSpace. by apply trim_empty.
Qed.

(** The lines of a text are all blank, or there is a first line that is
    not. *)
Lemma lines_cases (l : list string) :
  Forall isBlank l
  ∨ ∃ pre first rest, l = (pre ++ first :: rest)%list ∧ Forall isBlank pre ∧ ¬ isBlank first.
Proof.
  set (p := λ line, negb (isEmpty (trim line))).
  destruct (Z.ltb_spec (findIndex p l) 0) as [Hlt|Hge].
  - left. apply findIndex_none in Hlt as [_ H].
    eapply Forall_impl; [exact H|]. intros x Hx. by apply blank_test.
  - right. destruct (findIndex_found p _ Hge) as (pre & x & rest & -> & _ & Hpre & Hx).
    exists pre, x, rest. split_and!; [done| |by apply nonblank_test].
    eapply Forall_impl; [exact Hpre|]. intros y Hy. by apply blank_test.
Qed.

(** The result of [code] never starts with white space. *)
Lemma code_shape strings :
  code strings = "" ∨ ∃ c r, code strings = String c r ∧ isWhiteSpace c = false.
Proof.
  destruct (lines_cases (allLines strings)) as [Hall|(pre & first & rest & E & Hpre & Hfirst)].
  - left. by apply code_blank.
  - right. rewrite (code_found _ _ _ _ E Hpre Hfirst).
    change (map ?f (first :: rest)) with (f first :: map f rest).
    rewrite slice_leadingWhiteSpace.
    destruct (trimStart_shape first) as [Hs|(c & r & Hs & Hc)].
    + by apply trim_empty in Hs.
    + rewrite Hs. destruct (join_cons_String (str LF) c r
        (map (slice (String.length (leadingWhiteSpace first))) rest)) as [r' ->].
      by exists c, r'.
Qed.

(** On a text that does not start with white space, [code] only removes
    the trailing white space. *)
Lemma code_no_indent (s : string) :
  (s = "" ∨ ∃ c r, s = String c r ∧ isWhiteSpace c = false) →
  code s = trimEnd s.
Proof.
  intros [->|(c & r & -> & Hc)]; [done|].
  assert (c ≠ LF) as Hlf by (intros ->; done).
  destruct (split_cons_ne LF c (trimEnd r) Hlf) as (h & tl & _ & E).
  rewrite (code_found (String c r) [] (String c h) tl).
  - rewrite leadingWhiteSpace_nonws by done. simpl String.length.
    rewrite map_slice_0, <- E, join_split. symmetry. by apply trimEnd_nonws.
  - unfold allLines. simpl getTemplateStrings. simpl join.
    by rewrite trimEnd_nonws.
  - constructor.
  - unfold isBlank. by rewrite trim_nonws.
Qed.

(** The output of [code] has no trailing white space when the last line is
    longer than the indentation that is cut. *)
Lemma code_no_trailing strings pre first rest (lastLine : string) :
  allLines strings = (pre ++ first :: rest)%list →
  Forall isBlank pre → ¬ isBlank first →
  last (first :: rest) = Some lastLine →
  (String.length (leadingWhiteSpace first) < String.length lastLine)%nat →
  trimEnd (code strings) = code strings.
Proof.
  intros Hlines Hpre Hfirst Hlast Hlen.
  rewrite (code_found _ _ _ _ Hlines Hpre Hfirst).
  apply last_Some in Hlast as [front Hfront].
  assert (trimEnd lastLine = lastLine) as Hfixed.
  { destruct (join_snoc (str LF) (pre ++ front) lastLine) as [text Htext].
    apply (trimEnd_fixed_suffix text). rewrite <- Htext.
    rewrite <- (assoc_L (++)%list), <- Hfront, <- Hlines.
    unfold allLines. by rewrite join_split, trimEnd_idemp. }
  set (n := String.length (leadingWhiteSpace first)) in *.
  rewrite Hfront, map_app.
  change (map (slice n) [lastLine]) with [slice n lastLine].
  destruct (join_snoc (str LF) (map (slice n) front) (slice n lastLine)) as [text ->].
  apply trimEnd_fixed_app; [|by apply trimEnd_fixed_slice].
  intros E. apply (f_equal String.length) in E. rewrite length_slice in E.
  simpl in E. lia.
Qed.

End Dedent.

Section DedentClaims.

Implicit Types (strings : TemplateArg) (line first : string) (pre rest : list string).

(** C5, as stated: [code] applied to its own output gives that output
    back.  It does not on a text whose last line is shorter than the
    indentation of the first: the line is cut to nothing, the output ends
    with a line feed, and the second pass removes it. *)
Lemma code_not_idempotent :
  let text := "    a" ++ str LF ++ "b" in
  code text = "a" ++ str LF ∧ code (code text) = "a" ∧ code (code text) ≠ code text.
Proof. vm_compute. by split_and!. Qed.

(** C5, amended: [code] applied to its own output gives that output without
    its trailing white space; so the output is unchanged exactly when it
    has no trailing white space, which is the case whenever the last line
    of the text is longer than the leading white space of its first
    non-blank line. *)
Theorem code_twice strings :
  code (code strings) = trimEnd (code strings)
  ∧ (code (code strings) = code strings ↔ trimEnd (code strings) = code strings)
  ∧ ∀ pre first rest lastLine,
      allLines strings = (pre ++ first :: rest)%list →
      Forall isBlank pre → ¬ isBlank first →
      last (first :: rest) = Some lastLine →
      (String.length (leadingWhiteSpace first) < String.length lastLine)%nat →
      code (code strings) = code strings.
Proof.
  assert (code (code strings) = trimEnd (code strings)) as E
    by apply code_no_indent, code_shape.
  split_and!; [done|by rewrite E|].
  intros pre first rest lastLine Hlines Hpre Hfirst Hlast Hlen.
  rewrite E. by eapply code_no_trailing.
Qed.

Lemma code_twice_witness :
  let text :=
    str LF ++ "    function add(a: number, b: number) {" ++ str LF
           ++ "        return a + b;" ++ str LF
           ++ "    }" ++ str LF ++ "  " in
  code (code text) = code text.
Proof.
  destruct (code_twice (Plain (str LF ++ "    function add(a: number, b: number) {" ++ str LF
           ++ "        return a + b;" ++ str LF
           ++ "    }" ++ str LF ++ "  "))) as (_ & _ & H).
  apply (H [""] "    function add(a: number, b: number) {"
           ["        return a + b;"; "    }"] "    }").
  - reflexivity.
  - constructor; [reflexivity|constructor].
  - unfold isBlank. vm_compute. discriminate.
  - reflexivity.
  - vm_compute. lia.
Defined.

(** C10: [code] cuts the same number of characters, the length of the
    leading white space of the first non-blank line, from the start of
    every later line.  A later non-blank line with less leading white space
    than that loses characters of its content: what is left of it is
    shorter than the line without its leading white space. *)
Theorem code_cuts_content strings pre first rest (i : nat) line :
  allLines strings = (pre ++ first :: rest)%list →
  Forall isBlank pre → ¬ isBlank first →
  rest !! i = Some line →
  ¬ isBlank line →
  (String.length (leadingWhiteSpace line) < String.length (leadingWhiteSpace first))%nat →
  split LF (code strings) !! S i
    = Some (slice (String.length (leadingWhiteSpace first)) line)
  ∧ (String.length (slice (String.length (leadingWhiteSpace first)) line)
     < String.length (trimStart line))%nat.
Proof.
  intros Hlines Hpre Hfirst Hi Hline Hlt.
  set (n := String.length (leadingWhiteSpace first)) in *.
  split.
  - rewrite (code_found _ _ _ _ Hlines Hpre Hfirst). fold n.
    rewrite split_join; [|done|].
    + change (map (slice n) (first :: rest)) with (slice n first :: map (slice n) rest).
      simpl. by rewrite list_lookup_fmap, Hi.
    + apply Forall_fmap. pose proof (split_occurs LF
        (trimEnd (join "" (getTemplateStrings strings)))) as Hocc.
      fold (allLines strings) in Hocc. rewrite Hlines in Hocc.
      apply Forall_app in Hocc as [_ Hocc].
      eapply Forall_impl; [exact Hocc|]. intros x Hx. by apply occurs_slice.
  - rewrite <- slice_leadingWhiteSpace, !length_slice.
    assert (String.length (leadingWhiteSpace line) < String.length line)%nat; [|lia].
    pose proof (length_leadingWhiteSpace line) as Hle.
    destruct (decide (String.length (leadingWhiteSpace line) = String.length line))
      as [Heq|]; [|lia].
    exfalso. apply Hline. apply trim_empty.
    rewrite <- slice_leadingWhiteSpace, Heq.
    apply length_0_empty. rewrite length_slice. lia.
Qed.

Lemma code_cuts_content_witness :
  let text := "    a" ++ str LF ++ "  bcd" in
  split LF (code text) !! 1%nat = Some "d"
  ∧ (String.length "d" < String.length "bcd")%nat.
Proof.
  apply (code_cuts_content (Plain ("    a" ++ str LF ++ "  bcd"))
           [] "    a" ["  bcd"] 0 "  bcd").
  - reflexivity.
  - constructor.
  - unfold isBlank. vm_compute. discriminate.
  - reflexivity.
  - unfold isBlank. vm_compute. discriminate.
  - vm_compute. lia.
Defined.

End DedentClaims.

(** ** [parse]: the argument parser *)

Section ParseFacts.

Implicit Types (arg key value body : string) (flags : Flags.t) (args argv pre post : list string).

(** One step of the loop on a flag token. *)
Lemma parseArg_flag flags args arg body :
  flagBody arg = Some body →
  parseArg (flags, args) arg =
    match split "=" body !! 0%nat with
    | None | Some "" => (flags, args)
    | Some key =>
        (Flags.set key (nullish (FString <$> split "=" body !! 1%nat) (FBoolean true)) flags,
         args)
    end.
Proof.
  unfold flagBody, parseArg.
  destruct (startsWith "--" arg); [by intros [= <-]|].
  destruct (startsWith "-" arg); [by intros [= <-]|done].
Qed.

(** One step of the loop on a positional argument. *)
Lemma parseArg_positional flags args arg :
  flagBody arg = None → parseArg (flags, args) arg = (flags, (args ++ [arg])%list).
Proof.
  unfold flagBody, parseArg.
  destruct (startsWith "--" arg); [done|]. by destruct (startsWith "-" arg).
Qed.

Lemma parse_app pre post : parse (pre ++ post) = foldl parseArg (parse pre) post.
Proof. unfold parse. apply foldl_app. Qed.

(** A token leaves alone every flag but the one it names. *)
Lemma parseArg_lookup_ne (state : Flags.t * list string) arg key :
  flagKey arg ≠ Some key →
  Flags.map (parseArg state arg).1 !! key = Flags.map state.1 !! key.
Proof.
  destruct state as [flags args]. unfold flagKey. intros Hne.
  destruct (flagBody arg) as [body|] eqn:E; simpl in Hne.
  - rewrite (parseArg_flag _ _ _ _ E).
    destruct (split "=" body !! 0%nat) as [[|c k]|]; [done| |done].
    simpl. apply lookup_insert_ne. congruence.
  - by rewrite (parseArg_positional _ _ _ E).
Qed.

Lemma foldl_parseArg_lookup_ne (state : Flags.t * list string) post key :
  Forall (λ arg, flagKey arg ≠ Some key) post →
  Flags.map (foldl parseArg state post).1 !! key = Flags.map state.1 !! key.
Proof.
  intros Hpost. revert state.
  induction Hpost as [|arg post Harg _ IH]; intros state; simpl; [done|].
  by rewrite IH, parseArg_lookup_ne.
Qed.

Lemma flagBody_short body :
  startsWith "-" body = false → flagBody ("-" ++ body) = Some body.
Proof.
  intros H. unfold flagBody.
  change (startsWith "--" ("-" ++ body)) with (true && startsWith "-" body).
  by rewrite H.
Qed.

Lemma split_key_value key value :
  occurs "=" key = false →
  split "=" (key ++ "=" ++ value) = key :: split "=" value.
Proof. intros H. by apply (split_app "="%char). Qed.

Lemma split_head sep (s : string) : split sep s !! 0%nat = Some (hd "" (split sep s)).
Proof.
  by split_pieces sep s as h tl E.
Qed.

(** [--key=value], or [-key=value], on its own step. *)
Lemma parseArg_key_value flags args arg key value :
  flagBody arg = Some (key ++ "=" ++ value) → key ≠ "" → occurs "=" key = false →
  parseArg (flags, args) arg
    = (Flags.set key (FString (hd "" (split "=" value))) flags, args).
Proof.
  intros Hbody Hkey Hocc. rewrite (parseArg_flag _ _ _ _ Hbody).
  rewrite split_key_value by done.
  change ((key :: split "=" value) !! 0%nat) with (Some key).
  change ((key :: split "=" value) !! 1%nat) with (split "=" value !! 0%nat).
  rewrite split_head. by destruct key.
Qed.

(** [--key], or [-key], on its own step. *)
Lemma parseArg_key flags args arg key :
  flagBody arg = Some key → key ≠ "" → occurs "=" key = false →
  parseArg (flags, args) arg = (Flags.set key (FBoolean true) flags, args).
Proof.
  intros Hbody Hkey Hocc. rewrite (parseArg_flag _ _ _ _ Hbody).
  rewrite split_whole by done. by destruct key.
Qed.

End ParseFacts.

Section ParseClaims.

Implicit Types (arg key value body : string) (flags : Flags.t) (args argv pre post : list string).

(** C1, as stated: [--key=value] maps [key] to [value], also when [value]
    holds a [=].  For [--a=b=c] the flag [a] is ["b"], not ["b=c"]:
    [split('=')] cuts at every [=] and the destructuring keeps the first
    two pieces. *)
Lemma parse_value_with_equals :
  Flags.map (parse ["--a=b=c"]).1 !! "a" = Some (FString "b")
  ∧ Flags.map (parse ["--a=b=c"]).1 !! "a" ≠ Some (FString "b=c").
Proof. by vm_compute. Qed.

(** C1, amended: for a token [--key=value] whose key is not empty and
    which no later token overwrites, the flags map [key] to the part of
    [value] before its first [=], which is all of [value] when [value]
    holds no [=]; for such a token [--key] with no [=] the flags map [key]
    to [true]. *)
Theorem parse_long_flag pre post key value :
  key ≠ "" → occurs "=" key = false →
  Forall (λ arg, flagKey arg ≠ Some key) post →
  Flags.map (parse (pre ++ ("--" ++ key ++ "=" ++ value) :: post)).1 !! key
    = Some (FString (hd "" (split "=" value)))
  ∧ (occurs "=" value = false →
     Flags.map (parse (pre ++ ("--" ++ key ++ "=" ++ value) :: post)).1 !! key
       = Some (FString value))
  ∧ Flags.map (parse (pre ++ ("--" ++ key) :: post)).1 !! key = Some (FBoolean true).
Proof.
  intros Hkey Hocc Hpost.
  assert (Flags.map (parse (pre ++ ("--" ++ key ++ "=" ++ value) :: post)).1 !! key
          = Some (FString (hd "" (split "=" value)))) as E.
  { rewrite parse_app. simpl foldl. rewrite foldl_parseArg_lookup_ne by done.
    destruct (parse pre) as [flags args].
    rewrite (parseArg_key_value flags args _ key value) by done.
    apply lookup_insert_eq. }
  split_and!; [done| |].
  - intros Hvalue. rewrite E. by rewrite split_whole.
  - rewrite parse_app. simpl foldl. rewrite foldl_parseArg_lookup_ne by done.
    destruct (parse pre) as [flags args].
    rewrite (parseArg_key flags args _ key) by done.
    apply lookup_insert_eq.
Qed.

Lemma parse_long_flag_witness :
  Flags.map (parse (["x"] ++ ("--" ++ "a" ++ "=" ++ "b=c") :: ["-y"])).1 !! "a"
    = Some (FString (hd "" (split "=" "b=c")))
  ∧ (occurs "=" "b=c" = false →
     Flags.map (parse (["x"] ++ ("--" ++ "a" ++ "=" ++ "b=c") :: ["-y"])).1 !! "a"
       = Some (FString "b=c"))
  ∧ Flags.map (parse (["x"] ++ ("--" ++ "a") :: ["-y"])).1 !! "a" = Some (FBoolean true).
Proof.
  apply (parse_long_flag ["x"] ["-y"] "a" "b=c").
  - discriminate.
  - reflexivity.
  - constructor; [|constructor]. vm_compute. discriminate.
Defined.

(** The tokens with an empty key: the bare dashes, and the dashes followed
    by [=]. *)
Lemma empty_key_tokens value :
  flagKey "--" = Some "" ∧ flagKey "-" = Some ""
  ∧ flagKey ("--=" ++ value) = Some "" ∧ flagKey ("-=" ++ value) = Some "".
Proof. by split_and!. Qed.

(** C6: a token whose key is empty changes neither the flags nor the
    positional arguments, and the tokens after it are parsed as if it were
    not there; so [--] does not end the flags. *)
Theorem parse_empty_key arg pre post :
  flagKey arg = Some "" →
  (∀ state, parseArg state arg = state)
  ∧ parse (pre ++ arg :: post) = parse (pre ++ post).
Proof.
  intros Hkey.
  assert (∀ state, parseArg state arg = state) as Hstep.
  { intros [flags args]. unfold flagKey in Hkey.
    destruct (flagBody arg) as [body|] eqn:E; [|done]. simpl in Hkey.
    by rewrite (parseArg_flag _ _ _ _ E), Hkey. }
  split; [done|]. rewrite !parse_app. simpl foldl. by rewrite Hstep.
Qed.

Lemma parse_empty_key_witness :
  (∀ state, parseArg state "--" = state)
  ∧ parse (["-v"] ++ "--" :: ["--x=1"; "file"]) = parse (["-v"] ++ ["--x=1"; "file"]).
Proof. apply (parse_empty_key "--" ["-v"] ["--x=1"; "file"]). reflexivity. Defined.

Lemma parseArg_stringOrTrue (state : Flags.t * list string) arg :
  map_Forall (λ _, stringOrTrue) (Flags.map state.1) →
  map_Forall (λ _, stringOrTrue) (Flags.map (parseArg state arg).1).
Proof.
  destruct state as [flags args]. intros Hinv.
  destruct (flagBody arg) as [body|] eqn:E.
  - rewrite (parseArg_flag _ _ _ _ E).
    destruct (split "=" body !! 0%nat) as [[|c k]|]; [done| |done].
    simpl. apply map_Forall_insert_2; [|done].
    by destruct (split "=" body !! 1%nat).
  - by rewrite (parseArg_positional _ _ _ E).
Qed.

Lemma foldl_parseArg_stringOrTrue argv (state : Flags.t * list string) :
  map_Forall (λ _, stringOrTrue) (Flags.map state.1) →
  map_Forall (λ _, stringOrTrue) (Flags.map (foldl parseArg state argv).1).
Proof.
  revert state. induction argv as [|arg argv IH]; intros state Hinv; simpl; [done|].
  by apply IH, parseArg_stringOrTrue.
Qed.

(** C8: every value in the flags that [parse] returns is a string or
    [true]; [false] is never stored. *)
Theorem parse_values argv :
  map_Forall (λ _, stringOrTrue) (Flags.map (parse argv).1)
  ∧ ∀ key, Flags.map (parse argv).1 !! key ≠ Some (FBoolean false).
Proof.
  assert (map_Forall (λ _, stringOrTrue) (Flags.map (parse argv).1)) as Hall.
  { apply foldl_parseArg_stringOrTrue. simpl. apply map_Forall_empty. }
  split; [done|]. intros key Hkey. by apply Hall in Hkey.
Qed.

(** C9: a token of one dash followed by a body without [=] sets one flag,
    named by the whole body, to [true]: alone on the command line it gives
    the flags that hold this one entry. *)
Theorem parse_short_flag body :
  body ≠ "" → occurs "=" body = false → startsWith "-" body = false →
  (∀ flags args,
     parseArg (flags, args) ("-" ++ body) = (Flags.set body (FBoolean true) flags, args))
  ∧ parse ["-" ++ body] = (Flags.mk {[ body := FBoolean true ]}, [])
  ∧ Flags.size (parse ["-" ++ body]).1 = 1%nat.
Proof.
  intros Hbody Hocc Hdash.
  assert (∀ flags args,
    parseArg (flags, args) ("-" ++ body) = (Flags.set body (FBoolean true) flags, args))
    as Hstep.
  { intros flags args. apply parseArg_key; [|done..]. by apply flagBody_short. }
  assert (parse ["-" ++ body] = (Flags.mk {[ body := FBoolean true ]}, [])) as E.
  { change (parse ["-" ++ body]) with (parseArg (Flags.new, []) ("-" ++ body)).
    rewrite Hstep. unfold Flags.set, Flags.new. simpl. by rewrite insert_empty. }
  split_and!; [done..|]. rewrite E. unfold Flags.size. simpl.
  apply map_size_singleton.
Qed.

Lemma parse_short_flag_witness :
  (∀ flags args,
     parseArg (flags, args) ("-" ++ "abc") = (Flags.set "abc" (FBoolean true) flags, args))
  ∧ parse ["-" ++ "abc"] = (Flags.mk {[ "abc" := FBoolean true ]}, [])
  ∧ Flags.size (parse ["-" ++ "abc"]).1 = 1%nat.
Proof. apply (parse_short_flag "abc"); [discriminate|reflexivity..]. Defined.

End ParseClaims.

(** ** [confirm] *)

Section ConfirmClaims.

Implicit Types (message answer : string) (options : ConfirmOptions).

(** C2, as stated: the answer is trimmed before the test.  [confirm] does
    not trim: the answer [" y"] is refused. *)
Lemma confirm_does_not_trim :
  fst <$> confirm "Create? (Y/n) " {| acceptDefault := true |}
            {| input := [" y"]; output := [] |} = Some false
  ∧ confirmAsSpecified {| acceptDefault := true |} " y" = true.
Proof. by vm_compute. Qed.

Lemma lowerChar_y c : lowerChar c = "y"%char ↔ c = "y"%char ∨ c = "Y"%char.
Proof.
  split.
  - destruct c as [[] [] [] [] [] [] [] []]; vm_compute; intros [=]; auto.
  - by intros [->| ->].
Qed.

(** C2, amended: [confirm] prints the prompt, reads one line, and accepts
    when an empty answer is allowed and the line is empty; otherwise it
    accepts exactly when the line as read, lowercased and not trimmed,
    begins with [y], that is when its first character is [y] or [Y]. *)
Theorem confirm_decision message options answer rest out :
  confirm message options {| input := answer :: rest; output := out |}
    = Some (if acceptDefault options && isEmpty answer then true
            else startsWith "y" (toLowerCase answer),
            {| input := rest; output := (out ++ [message])%list |})
  ∧ (startsWith "y" (toLowerCase answer) = true
     ↔ ∃ r, answer = String "y" r ∨ answer = String "Y" r).
Proof.
  split.
  - unfold confirm, question. simpl.
    by destruct (acceptDefault options && isEmpty answer).
  - destruct answer as [|c r]; simpl.
    + split; [done|]. by intros (r & [?|?]).
    + rewrite andb_true_iff, bool_decide_eq_true. split.
      * intros [Hc _]. symmetry in Hc. apply lowerChar_y in Hc as [->| ->]; eauto.
      * intros (r' & [[= -> ->]|[= -> ->]]); split; first [done | by destruct (toLowerCase r')].
Qed.

End ConfirmClaims.

(** ** [getGitUser] *)

Section GitClaims.

(** C3: when git prints nothing, whatever its exit code, [getGitUser]
    returns the object with the single key [''] (mapped to ['']), not the
    empty object: [''.split('\n')] is [['']], one empty line, which is
    turned into an entry. *)
Theorem getGitUser_no_entries (code : Z) :
  getGitUser {| stdout := ""; exitCode := code |} = {[ "" := "" ]}
  ∧ getGitUser {| stdout := ""; exitCode := code |} ≠ ∅.
Proof.
  assert (getGitUser {| stdout := ""; exitCode := code |} = {[ "" := "" ]}) as E
    by (unfold getGitUser, fromEntries; simpl; apply insert_empty).
  split; [done|]. rewrite E. apply map_non_empty_singleton.
Qed.

End GitClaims.

(** ** [json] *)

Section JsonClaims.

(** C4, as stated: the text for [{a: 1, b: 2}] has three lines.  It has
    four: the two braces and the two fields. *)
Lemma json_ab_not_three_lines :
  ¬ ∃ text, json (Object [("a", Number 1); ("b", Number 2)]) = Some text
            ∧ length (split LF text) = 3%nat.
Proof. intros (text & [= <-] & Hlen). vm_compute in Hlen. discriminate. Qed.

(** C4, amended: the text for [{a: 1, b: 2}] has four lines: an opening
    brace, ["a": 1] followed by a comma, ["b": 2], and a closing brace,
    the two fields each after one tab. *)
Theorem json_ab :
  let quoted key := String DQUOTE (key ++ str DQUOTE) in
  ∃ text, json (Object [("a", Number 1); ("b", Number 2)]) = Some text
          ∧ split LF text
              = ["{";
                 String TAB (quoted "a" ++ ": 1" ++ ",");
                 String TAB (quoted "b" ++ ": 2");
                 "}"]
          ∧ length (split LF text) = 4%nat.
Proof. eexists. split; [reflexivity|]. by vm_compute. Qed.

End JsonClaims.

(** ** The [build] script of the manifest *)

Section ManifestClaims.

Implicit Types (pm moduleName : string) (user : gmap string string) (argv : list string).

(** The package manager read from the flags is the one given last with
    [--p=]. *)
Lemma PACKAGE_MANAGER_selected argv pm :
  pm ∈ packageManagers →
  PACKAGE_MANAGER (parse (argv ++ ["--p=" ++ pm; "-y"])).1 = Return pm.
Proof.
  intros Hpm. rewrite parse_app. destruct (parse argv) as [flags args].
  assert (occurs "=" pm = false) as Hocc.
  { unfold packageManagers in Hpm. set_unfold.
    by destruct Hpm as [->|[->|[->|[->|[]]]]]. }
  change (foldl parseArg (flags, args) ["--p=" ++ pm; "-y"])
    with (parseArg (parseArg (flags, args) ("--p=" ++ pm)) "-y").
  rewrite (parseArg_key_value flags args ("--p=" ++ pm) "p" pm) by done.
  rewrite (parseArg_key _ _ "-y" "y") by done.
  unfold PACKAGE_MANAGER, Flags.getStringAsOptionOrDefault, Flags.getStringOrDefault.
  simpl. rewrite lookup_insert_ne by done. rewrite lookup_insert_eq.
  rewrite split_whole by done. simpl. by rewrite bool_decide_true.
Qed.

Lemma startsLine_app_r (x s t : string) : startsLine x t → startsLine x (s ++ t).
Proof. intros (a & b & ->). exists (s ++ a), b. by rewrite string_app_assoc. Qed.

Lemma startsLine_app_l (x s t : string) : startsLine x s → startsLine x (s ++ t).
Proof.
  intros (a & b & ->). exists a, (b ++ t). rewrite <- !string_app_assoc.
  change (String LF (x ++ b) ++ t) with (String LF ((x ++ b) ++ t)).
  by rewrite <- string_app_assoc.
Qed.

Lemma join_cons_app (sep p : string) (l : list string) : ∃ b, join sep (p :: l) = p ++ b.
Proof.
  destruct l as [|q l]; [|by eexists].
  exists "". simpl. induction p as [|c p IH]; [done|].
  change (String c p ++ "") with (String c (p ++ "")). by rewrite <- IH.
Qed.

(** In a text joined with a comma, a line feed and an indentation, every
    piece but the first starts a line, after the indentation. *)
Lemma join_startsLine (ind x p : string) (before after : list string) :
  startsLine (ind ++ p) (join ("," ++ str LF ++ ind) ((x :: before) ++ p :: after)).
Proof.
  revert x. induction before as [|y before IH]; intros x.
  - destruct (join_cons_app ("," ++ str LF ++ ind) p after) as [b Hb].
    change (([x] ++ p :: after)%list) with (x :: p :: after).
    change (join ?sep (x :: p :: after)) with (x ++ sep ++ join sep (p :: after)).
    rewrite Hb. exists (x ++ ","), b.
    rewrite <- (string_app_assoc x ","). f_equal.
    change (("," ++ str LF ++ ind) ++ p ++ b) with (String "," (String LF (ind ++ p ++ b))).
    by rewrite (string_app_assoc ind p b).
  - change (((x :: y :: before) ++ p :: after)%list)
      with (x :: ((y :: before) ++ p :: after))%list.
    change (join ?sep (x :: ((y :: before) ++ p :: after)%list))
      with (x ++ sep ++ join sep ((y :: before) ++ p :: after)%list).
    by do 2 apply startsLine_app_r.
Qed.

Lemma omap_cons_Some {A B} (f : A → option B) (a : A) (l : list A) (b : B) :
  f a = Some b → omap f (a :: l) = b :: omap f l.
Proof. intros H. csimpl. by rewrite H. Qed.

(** In the text of an object, a property that is printed and is not the
    first one printed starts a line: indentation, quoted key, colon, space
    and value. *)
Lemma object_startsLine (gap indent k0 : string) (v0 : Value) (s0 : string)
    (props1 : list (string * Value)) (k : string) (v : Value) (strP : string)
    (props2 : list (string * Value)) :
  serializeJSONProperty gap (indent ++ gap) v0 = Some s0 →
  serializeJSONProperty gap (indent ++ gap) v = Some strP →
  ∃ text,
    serializeJSONProperty gap indent (Object (((k0, v0) :: props1) ++ (k, v) :: props2))
      = Some text
    ∧ startsLine ((indent ++ gap) ++ quoteJSONString k ++ ": " ++ strP) text.
Proof.
  intros H0 Hv. cbn [serializeJSONProperty].
  set (f := λ kv : string * Value,
              match serializeJSONProperty gap (indent ++ gap) kv.2 with
              | Some strP => Some (quoteJSONString kv.1 ++ ": " ++ strP)
              | None => None
              end).
  rewrite omap_app.
  rewrite (omap_cons_Some f (k0, v0) props1 (quoteJSONString k0 ++ ": " ++ s0))
    by (unfold f; simpl; by rewrite H0).
  rewrite (omap_cons_Some f (k, v) props2 (quoteJSONString k ++ ": " ++ strP))
    by (unfold f; simpl; by rewrite Hv).
  eexists. split; [reflexivity|].
  do 3 apply startsLine_app_r. apply startsLine_app_l, join_startsLine.
Qed.

Lemma startsWith_prefix (p s : string) : startsWith p s = true → ∃ t, s = p ++ t.
Proof.
  revert s. induction p as [|c p IH]; intros s; [by exists s|].
  destruct s as [|d s]; [done|]. simpl.
  rewrite andb_true_iff, bool_decide_eq_true. intros [-> [t ->]%IH]. by exists t.
Qed.

(** Two lines, one after the other, at the start of a piece that starts a
    line, are two neighbouring lines of the text. *)
Lemma startsLine_lines (line1 line2 x text : string) :
  startsLine x text →
  startsWith (line1 ++ String LF (line2 ++ str LF)) x = true →
  occurs LF line1 = false → occurs LF line2 = false →
  ∃ i : nat, split LF text !! i = Some line1 ∧ split LF text !! S i = Some line2.
Proof.
  intros (a & b & ->) [t ->]%startsWith_prefix H1 H2.
  exists (length (split LF a)).
  rewrite <- !string_app_assoc.
  change (String LF (line2 ++ str LF) ++ t ++ b)
    with (String LF ((line2 ++ str LF) ++ t ++ b)).
  rewrite <- !string_app_assoc.
  change (str LF ++ t ++ b) with (String LF (t ++ b)).
  rewrite split_app_sep, !split_app by done.
  rewrite !lookup_app_r by lia.
  replace (length (split LF a) - length (split LF a))%nat with 0%nat by lia.
  replace (S (length (split LF a)) - length (split LF a))%nat with 1%nat by lia.
  done.
Qed.

(** In the text of the manifest the property [scripts] starts a line,
    after one tab. *)
Lemma manifest_scripts pm moduleName user :
  ∃ text scripts,
    json (packageJson moduleName user pm) = Some text
    ∧ serializeJSONProperty (str TAB) ("" ++ str TAB)
        (Object [
          ("build",
            Str (if decide (pm = "npm") then "npx tsup" else pm ++ " tsup"));
          ("release", Str (pm ++ " run build && " ++ pm ++ " publish"))
        ]) = Some scripts
    ∧ startsLine (("" ++ str TAB) ++ quoteJSONString "scripts" ++ ": " ++ scripts) text.
Proof.
  destruct (object_startsLine (str TAB) ("" ++ str TAB) "build"
              (Str (if decide (pm = "npm") then "npx tsup" else pm ++ " tsup")) _ []
              "release" (Str (pm ++ " run build && " ++ pm ++ " publish")) _ []
              eq_refl eq_refl)
    as (scripts & Hscripts & _).
  destruct (object_startsLine (str TAB) "" "name" (Str moduleName) _
    [ ("version", Str "0.0.1");
      ("description", Str "Description");
      ("keywords", Array []);
      ("author",
        if truthy (user !! "name")
        then Object [("name", optional (user !! "name")); ("email", optional (user !! "email"))]
        else Undefined);
      ("license", Str "MIT");
      ("type", Str "module") ]
    "scripts" _ scripts
    [ ("exports", Object [
        ("./package.json", Str "./package.json");
        (".", Object [
          ("import", Str "./dist/index.js");
          ("require", Str "./dist/index.cjs")
        ])
      ]);
      ("files", Array [Str "LICENSE"; Str "README.md"; Str "dist"]) ]
    eq_refl Hscripts) as (text & Htext & Hline).
  by exists text, scripts.
Qed.

(** C7: for each of the supported package managers, selected on the
    command line, the text of the generated manifest holds, right after the
    line that opens [scripts], the line of the [build] script; the script is
    the manager's name followed by [tsup], except for npm, where it is
    [npx tsup], which is not of that form. *)
Theorem build_script pm argv moduleName user :
  pm ∈ packageManagers →
  let quoted key := String DQUOTE (key ++ str DQUOTE) in
  PACKAGE_MANAGER (parse (argv ++ ["--p=" ++ pm; "-y"])).1 = Return pm
  ∧ ∃ build text (i : nat),
      json (packageJson moduleName user pm) = Some text
      ∧ split LF text !! i = Some (String TAB (quoted "scripts" ++ ": {"))
      ∧ split LF text !! S i
        = Some (String TAB (String TAB (quoted "build" ++ ": " ++ quoted build ++ ",")))
      ∧ (pm ≠ "npm" → build = pm ++ " tsup")
      ∧ (pm = "npm" → build = "npx tsup" ∧ build ≠ pm ++ " tsup").
Proof.
  intros Hpm quoted. split; [by apply PACKAGE_MANAGER_selected|].
  destruct (manifest_scripts pm moduleName user) as (text & scripts & Htext & Hscripts & Hline).
  exists (if decide (pm = "npm") then "npx tsup" else pm ++ " tsup"), text.
  assert (∃ i : nat,
    split LF text !! i = Some (String TAB (quoted "scripts" ++ ": {"))
    ∧ split LF text !! S i
      = Some (String TAB (String TAB (quoted "build" ++ ": "
          ++ quoted (if decide (pm = "npm") then "npx tsup" else pm ++ " tsup") ++ ","))))
    as (i & Hi1 & Hi2).
  { unfold packageManagers in Hpm. apply list_elem_of_In in Hpm. simpl in Hpm.
    destruct Hpm as [<-|[<-|[<-|[<-|[]]]]];
      vm_compute in Hscripts; injection Hscripts as <-;
      (eapply startsLine_lines; [exact Hline|by vm_compute..]). }
  exists i. split_and!; [done..| |].
  - intros Hne. by rewrite decide_False.
  - intros ->. by rewrite decide_True.
Qed.

Lemma build_script_witness :
  let quoted key := String DQUOTE (key ++ str DQUOTE) in
  PACKAGE_MANAGER (parse (["my-lib"] ++ ["--p=" ++ "npm"; "-y"])).1 = Return "npm"
  ∧ ∃ build text (i : nat),
      json (packageJson "my-lib" ∅ "npm") = Some text
      ∧ split LF text !! i = Some (String TAB (quoted "scripts" ++ ": {"))
      ∧ split LF text !! S i
        = Some (String TAB (String TAB (quoted "build" ++ ": " ++ quoted build ++ ",")))
      ∧ ("npm" ≠ "npm" → build = "npm" ++ " tsup")
      ∧ ("npm" = "npm" → build = "npx tsup" ∧ build ≠ "npm" ++ " tsup").
Proof.
  apply (build_script "npm" ["my-lib"] "my-lib" ∅).
  unfold packageManagers. apply list_elem_of_In. simpl. auto.
Defined.

End ManifestClaims.

(** * Further properties *)

(** ** [parse]: positional arguments, lookup, composition *)

Section ParseMore.

Implicit Types (arg key body : string) (value : FlagValue) (flags : Flags.t)
  (args argv pre post : list string) (state : Flags.t * list string).

Lemma flagBody_None arg : flagBody arg = None ↔ startsWith "-" arg = false.
Proof.
  unfold flagBody. destruct arg as [|c [|d arg]]; simpl; [done|..].
  - destruct (bool_decide (_ = c)); simpl; split; congruence.
  - destruct (bool_decide (_ = c)); simpl; [|done].
    destruct (bool_decide (_ = d)); simpl; split; congruence.
Qed.

(** The three things a token can do: be appended to the positional
    arguments, be dropped, or set one flag. *)
Lemma parseArg_cases arg :
  (flagBody arg = None ∧ ∀ state, parseArg state arg = (state.1, (state.2 ++ [arg])%list))
  ∨ (flagKey arg = Some "" ∧ ∀ state, parseArg state arg = state)
  ∨ (∃ key value, key ≠ "" ∧ flagKey arg = Some key ∧ flagValue arg = Some value
       ∧ ∀ state, parseArg state arg = (Flags.set key value state.1, state.2)).
Proof.
  unfold flagKey, flagValue. destruct (flagBody arg) as [body|] eqn:E.
  - right. simpl. rewrite split_head.
    destruct (hd "" (split "=" body)) as [|c k] eqn:Hk.
    + left. split; [done|]. intros [flags args].
      by rewrite (parseArg_flag _ _ _ _ E), split_head, Hk.
    + right.
      exists (String c k), (nullish (FString <$> split "=" body !! 1%nat) (FBoolean true)).
      split_and!; [done..|]. intros [flags args]. by rewrite (parseArg_flag _ _ _ _ E), split_head, Hk.
  - left. split; [done|]. intros [flags args]. by apply parseArg_positional.
Qed.

Lemma foldl_parseArg_args state argv :
  (foldl parseArg state argv).2
  = (state.2 ++ filter (λ arg, startsWith "-" arg = false) argv)%list.
Proof.
  revert state. induction argv as [|arg argv IH]; intros state; simpl.
  - by rewrite app_nil_r.
  - rewrite IH. destruct (parseArg_cases arg) as [[Hb H]|[[Hk H]|(k & v & _ & Hk & _ & H)]];
      rewrite H; simpl.
    + apply flagBody_None in Hb. rewrite filter_cons_True by done.
      by rewrite <- (assoc_L (++)%list).
    + rewrite filter_cons_False; [done|]. intros Hd%flagBody_None.
      unfold flagKey in Hk. by rewrite Hd in Hk.
    + rewrite filter_cons_False; [done|]. intros Hd%flagBody_None.
      unfold flagKey in Hk. by rewrite Hd in Hk.
Qed.

(** X1: the positional arguments are the tokens that do not start with a
    dash, in their order on the command line. *)
Theorem parse_positionals argv :
  (parse argv).2 = filter (λ arg, startsWith "-" arg = false) argv.
Proof. unfold parse. by rewrite foldl_parseArg_args. Qed.

(** The flags after one more token. *)
Lemma parseArg_lookup state arg key :
  Flags.map (parseArg state arg).1 !! key
  = if decide (flagKey arg = Some key ∧ key ≠ "") then flagValue arg
    else Flags.map state.1 !! key.
Proof.
  case_decide as Hd.
  - destruct Hd as [Hk Hne].
    destruct (parseArg_cases arg) as [[Hb _]|[[Hk' _]|(k & v & _ & Hk' & Hv & H)]].
    + unfold flagKey in Hk. by rewrite Hb in Hk.
    + congruence.
    + rewrite H, Hv. simpl. assert (k = key) as -> by congruence.
      apply lookup_insert_eq.
  - destruct (decide (flagKey arg = Some key)) as [Hk|Hk]; [|by apply parseArg_lookup_ne].
    assert (key = "") as -> by (destruct (decide (key = "")); [done|by destruct Hd]).
    destruct (parseArg_cases arg) as [[Hb _]|[[_ H]|(k & v & Hne & Hk' & _ & _)]].
    + unfold flagKey in Hk. by rewrite Hb in Hk.
    + by rewrite H.
    + congruence.
Qed.

Lemma parse_snoc argv arg : parse (argv ++ [arg]) = parseArg (parse argv) arg.
Proof. by rewrite parse_app. Qed.

(** X2: the flags map a key to a value exactly when some token names that
    key, the key is not empty, the token carries that value, and no later
    token names the key: the last occurrence of a flag wins. *)
Theorem parse_lookup argv key value :
  Flags.map (parse argv).1 !! key = Some value
  ↔ ∃ pre arg post,
      argv = (pre ++ arg :: post)%list ∧ key ≠ ""
      ∧ flagKey arg = Some key ∧ flagValue arg = Some value
      ∧ Forall (λ later, flagKey later ≠ Some key) post.
Proof.
  split.
  - induction argv as [|arg argv IH] using rev_ind; [done|].
    rewrite parse_snoc, parseArg_lookup. case_decide as Hd.
    + intros Hv. destruct Hd as [Hk Hne]. by exists argv, arg, [].
    + intros (pre & a & post & -> & Hne & Hk & Hv & Hpost)%IH.
      exists pre, a, (post ++ [arg])%list. split_and!; [|done..|].
      * by rewrite <- (assoc_L (++)%list).
      * apply Forall_app. split; [done|]. constructor; [|done].
        intros Hk'. by apply Hd.
  - intros (pre & arg & post & -> & Hne & Hk & Hv & Hpost).
    rewrite parse_app. simpl foldl. rewrite foldl_parseArg_lookup_ne by done.
    rewrite parseArg_lookup. by rewrite decide_True.
Qed.

(** When a key is among the flags. *)
Lemma parse_is_Some argv key :
  is_Some (Flags.map (parse argv).1 !! key)
  ↔ key ≠ "" ∧ ∃ arg, arg ∈ argv ∧ flagKey arg = Some key.
Proof.
  induction argv as [|arg argv IH] using rev_ind.
  - split; [by intros [? ?]|]. intros (_ & arg & Harg & _). by apply elem_of_nil in Harg.
  - rewrite parse_snoc, parseArg_lookup. case_decide as Hd.
    + destruct Hd as [Hk Hne]. split.
      * intros _. split; [done|]. exists arg. split; [|done].
        apply elem_of_app. right. by apply list_elem_of_singleton.
      * intros _. unfold flagKey in Hk. unfold flagValue.
        destruct (flagBody arg); [by eexists|done].
    + rewrite IH. split.
      * intros (Hne & a & Ha & Hk). split; [done|]. exists a. split; [|done].
        apply elem_of_app. by left.
      * intros (Hne & a & Ha & Hk). split; [done|].
        apply elem_of_app in Ha as [Ha|Ha%list_elem_of_singleton]; [by exists a|].
        subst a. by destruct Hd.
Qed.

(** X3: a key is among the flags exactly when it is not empty and some
    token names it; in particular the empty key never is. *)
Theorem parse_has_flag argv key :
  (is_Some (Flags.map (parse argv).1 !! key)
   ↔ key ≠ "" ∧ ∃ arg, arg ∈ argv ∧ flagKey arg = Some key)
  ∧ Flags.map (parse argv).1 !! "" = None.
Proof.
  split; [apply parse_is_Some|].
  apply eq_None_not_Some. by intros [Hne _]%parse_is_Some.
Qed.

Lemma foldl_parseArg_union state argv :
  foldl parseArg state argv
  = (Flags.mk (Flags.map (parse argv).1 ∪ Flags.map state.1),
     (state.2 ++ (parse argv).2)%list).
Proof.
  induction argv as [|arg argv IH] using rev_ind.
  - destruct state as [[m] args]. simpl. by rewrite (left_id_L ∅ (∪)), app_nil_r.
  - rewrite foldl_app, parse_snoc. simpl foldl. rewrite IH.
    destruct (parseArg_cases arg) as [[_ H]|[[_ H]|(k & v & _ & _ & _ & H)]];
      rewrite !H; simpl.
    + by rewrite (assoc_L (++)%list).
    + by destruct (parse argv) as [[m] args].
    + unfold Flags.set. simpl. by rewrite insert_union_l.
Qed.

(** X4: parsing two command lines one after the other: the positional
    arguments are concatenated, and the flags are those of the second
    command line together with those of the first that it does not set
    again. *)
Theorem parse_concat pre post :
  Flags.map (parse (pre ++ post)).1 = Flags.map (parse post).1 ∪ Flags.map (parse pre).1
  ∧ (parse (pre ++ post)).2 = ((parse pre).2 ++ (parse post).2)%list.
Proof. rewrite parse_app, foldl_parseArg_union. by split. Qed.

Lemma flagKey_occurs arg key : flagKey arg = Some key → occurs "=" key = false.
Proof.
  unfold flagKey. destruct (flagBody arg) as [body|]; [|done]. simpl.
  intros Hk. by apply (Forall_lookup_1 _ _ _ _ (split_occurs "=" body) Hk).
Qed.

Lemma flagValue_occurs arg (s : string) :
  flagValue arg = Some (FString s) → occurs "=" s = false.
Proof.
  unfold flagValue. destruct (flagBody arg) as [body|]; [|done]. simpl.
  destruct (split "=" body !! 1%nat) as [v|] eqn:Hv; simpl; [|done].
  intros [= <-]. by apply (Forall_lookup_1 _ _ _ _ (split_occurs "=" body) Hv).
Qed.

(** X5: no key among the flags is empty or holds a [=], and no string
    value holds a [=]. *)
Theorem parse_no_equals argv key value :
  Flags.map (parse argv).1 !! key = Some value →
  key ≠ "" ∧ occurs "=" key = false
  ∧ ∀ s : string, value = FString s → occurs "=" s = false.
Proof.
  revert value. induction argv as [|arg argv IH] using rev_ind; intros value; [done|].
  rewrite parse_snoc, parseArg_lookup. case_decide as Hd; [|by apply IH].
  destruct Hd as [Hk Hne]. intros Hv.
  split_and!; [done|by eapply flagKey_occurs|].
  intros s ->. by eapply flagValue_occurs.
Qed.

Lemma parse_no_equals_witness :
  "port" ≠ "" ∧ occurs "=" "port" = false
  ∧ ∀ s : string, FString "3000" = FString s → occurs "=" s = false.
Proof.
  apply (parse_no_equals ["--port=3000=x"; "file"] "port" (FString "3000")).
  by vm_compute.
Defined.

(** X6: every token gives at most one flag or one positional argument:
    the number of flags and the number of positional arguments add up to
    at most the number of tokens. *)
Theorem parse_count argv :
  (Flags.size (parse argv).1 + length (parse argv).2 ≤ length argv)%nat.
Proof.
  induction argv as [|arg argv IH] using rev_ind; [done|].
  rewrite parse_snoc, length_app. simpl.
  destruct (parseArg_cases arg) as [[_ H]|[[_ H]|(k & v & _ & _ & _ & H)]];
    rewrite H; simpl.
  - rewrite length_app. simpl. lia.
  - lia.
  - unfold Flags.size, Flags.set in *. simpl. rewrite map_size_insert.
    destruct (Flags.map (parse argv).1 !! k); simpl; lia.
Qed.

End ParseMore.

(** ** The typed accessors and the two flags of the program *)

Section FlagsMore.

Implicit Types (key : string) (value : FlagValue) (flags : Flags.t)
  (options argv : list string).

(** X7: what [set] stores under a key is what the accessor of its type
    returns for that key; the accessor of the other type throws; and the
    other keys read as before. *)
Theorem Flags_set_get key flags :
  (∀ s : string, Flags.getStringOrThrow key (Flags.set key (FString s) flags) = Return s)
  ∧ (∀ b : bool, Flags.getBooleanOrThrow key (Flags.set key (FBoolean b) flags) = Return b)
  ∧ (∀ s : string, Flags.getBooleanOrThrow key (Flags.set key (FString s) flags)
                   = Throw ("Flag " ++ key ++ " is not a boolean"))
  ∧ (∀ b : bool, Flags.getStringOrThrow key (Flags.set key (FBoolean b) flags)
                 = Throw ("Flag " ++ key ++ " is not a string"))
  ∧ ∀ other value, other ≠ key →
      Flags.getStringOrThrow other (Flags.set key value flags)
        = Flags.getStringOrThrow other flags
      ∧ Flags.getBooleanOrThrow other (Flags.set key value flags)
        = Flags.getBooleanOrThrow other flags.
Proof.
  unfold Flags.getStringOrThrow, Flags.getBooleanOrThrow, Flags.set. simpl.
  split_and!; intros; rewrite ?lookup_insert_eq, ?lookup_insert_ne by done; done.
Qed.

(** X8: the strict option accessor returns a value exactly when the flag
    is a string of the allowed set, and then returns that string. *)
Theorem getStringAsOptionOrThrow_Return key options flags (v : string) :
  Flags.getStringAsOptionOrThrow key options flags = Return v
  ↔ Flags.map flags !! key = Some (FString v) ∧ v ∈ options.
Proof.
  unfold Flags.getStringAsOptionOrThrow, Flags.getStringOrThrow.
  destruct (Flags.map flags !! key) as [[s|b]|]; [|split; [done|by intros [? _]]..].
  case_bool_decide as Hs.
  - split; [by intros [= ->]|]. by intros [[= ->] _].
  - split; [done|]. intros [[= ->] ?]. done.
Qed.

(** X9: the option accessor with a default throws exactly when the flag is
    a boolean; otherwise it returns the flag when it is in the allowed set
    and the default when it is absent or outside the set, so what it
    returns is in the set or is the default. *)
Theorem getStringAsOptionOrDefault_cases key options (d : string) flags :
  match Flags.map flags !! key with
  | Some (FBoolean _) =>
      Flags.getStringAsOptionOrDefault key options d flags
        = Throw ("Flag " ++ key ++ " is not a string")
  | Some (FString s) =>
      Flags.getStringAsOptionOrDefault key options d flags
        = Return (if bool_decide (s ∈ options) then s else d)
  | None => Flags.getStringAsOptionOrDefault key options d flags = Return d
  end
  ∧ ∀ v, Flags.getStringAsOptionOrDefault key options d flags = Return v →
         v ∈ options ∨ v = d.
Proof.
  unfold Flags.getStringAsOptionOrDefault, Flags.getStringOrDefault.
  destruct (Flags.map flags !! key) as [[s|b]|].
  - case_bool_decide; (split; [done|]); intros v [= <-]; auto.
  - by split.
  - case_bool_decide; (split; [done|]); intros v [= <-]; auto.
Qed.

(** X10: [flagIsElse] and the option accessor with a default pick the same
    value whenever the accessor returns; on a boolean flag the accessor
    throws, where [flagIsElse] gives the default. *)
Theorem flagIsElse_accessor key options (d : string) flags :
  match Flags.map flags !! key with
  | Some (FBoolean _) =>
      flagIsElse (Flags.map flags !! key) options d = inr d
      ∧ Flags.getStringAsOptionOrDefault key options d flags
        = Throw ("Flag " ++ key ++ " is not a string")
  | _ =>
      Flags.getStringAsOptionOrDefault key options d flags
      = Return (match flagIsElse (Flags.map flags !! key) options d with
                | inl v => v
                | inr e => e
                end)
  end.
Proof.
  unfold Flags.getStringAsOptionOrDefault, Flags.getStringOrDefault, flagIsElse.
  destruct (Flags.map flags !! key) as [[s|b]|]; [|done|]; by case_bool_decide.
Qed.

Lemma PACKAGE_MANAGER_lookup flags :
  PACKAGE_MANAGER flags
  = match Flags.map flags !! "p" with
    | Some (FBoolean _) => Throw "Flag p is not a string"
    | Some (FString s) => Return (if bool_decide (s ∈ packageManagers) then s else "bun")
    | None => Return "bun"
    end.
Proof.
  unfold PACKAGE_MANAGER, Flags.getStringAsOptionOrDefault, Flags.getStringOrDefault.
  destruct (Flags.map flags !! "p") as [[s|b]|]; [|done|]; by case_bool_decide.
Qed.

(** X11: the package manager the program works with is always one of the
    four supported ones. *)
Theorem PACKAGE_MANAGER_supported flags (pm : string) :
  PACKAGE_MANAGER flags = Return pm → pm ∈ packageManagers.
Proof.
  rewrite PACKAGE_MANAGER_lookup.
  assert ("bun" ∈ packageManagers) by (apply list_elem_of_In; simpl; auto).
  destruct (Flags.map flags !! "p") as [[s|b]|]; [|done|by intros [= <-]].
  case_bool_decide; by intros [= <-].
Qed.

Lemma PACKAGE_MANAGER_supported_witness : "yarn" ∈ packageManagers.
Proof.
  apply (PACKAGE_MANAGER_supported (parse ["lib"; "-p=yarn"]).1 "yarn").
  by vm_compute.
Defined.

(** X12: on the command line, a last [-p] without a value makes the
    program throw; a last [-p=value] with a value outside the supported set
    selects bun, as does a command line on which no token names [p]. *)
Theorem PACKAGE_MANAGER_command_line argv :
  PACKAGE_MANAGER (parse (argv ++ ["-p"])).1 = Throw "Flag p is not a string"
  ∧ (∀ v : string, occurs "=" v = false → v ∉ packageManagers →
       PACKAGE_MANAGER (parse (argv ++ ["-p=" ++ v])).1 = Return "bun")
  ∧ (Forall (λ arg, flagKey arg ≠ Some "p") argv →
       PACKAGE_MANAGER (parse argv).1 = Return "bun").
Proof.
  split_and!.
  - rewrite PACKAGE_MANAGER_lookup, parse_snoc, parseArg_lookup. by rewrite decide_True.
  - intros v Hocc Hv. rewrite PACKAGE_MANAGER_lookup, parse_snoc.
    destruct (parse argv) as [flags args].
    rewrite (parseArg_key_value flags args ("-p=" ++ v) "p" v) by done.
    simpl. rewrite lookup_insert_eq, split_whole by done. simpl.
    by rewrite bool_decide_false.
  - intros Hno. rewrite PACKAGE_MANAGER_lookup.
    assert (Flags.map (parse argv).1 !! "p" = None) as ->; [|done].
    apply eq_None_not_Some. intros (_ & arg & Harg & Hk)%parse_is_Some.
    rewrite Forall_forall in Hno. by apply (Hno arg).
Qed.

Lemma PACKAGE_MANAGER_command_line_witness :
  PACKAGE_MANAGER (parse (["lib"] ++ ["-p=" ++ "deno"])).1 = Return "bun"
  ∧ PACKAGE_MANAGER (parse ["lib"; "-y"]).1 = Return "bun".
Proof.
  destruct (PACKAGE_MANAGER_command_line ["lib"]) as (_ & Hv & _).
  destruct (PACKAGE_MANAGER_command_line ["lib"; "-y"]) as (_ & _ & Hno).
  split.
  - apply Hv; [reflexivity|]. unfold packageManagers. intros H.
    apply list_elem_of_In in H. simpl in H. by intuition discriminate.
  - apply Hno. repeat constructor; vm_compute; discriminate.
Defined.

Lemma SKIP_CONFIRMATION_lookup argv :
  SKIP_CONFIRMATION (parse argv).1
  = match Flags.map (parse argv).1 !! "y" with
    | Some (FBoolean _) => Return true
    | Some (FString _) => Throw "Flag y is not a boolean"
    | None => Return false
    end.
Proof.
  unfold SKIP_CONFIRMATION, Flags.getBooleanOrDefault.
  destruct (Flags.map (parse argv).1 !! "y") as [[s|b]|] eqn:E; [done| |done].
  assert (map_Forall (λ _, stringOrTrue) (Flags.map (parse argv).1)) as Hall.
  { apply foldl_parseArg_stringOrTrue. simpl. apply map_Forall_empty. }
  apply Hall in E. simpl in E. by subst b.
Qed.

(** X13: the confirmation is asked for ([SKIP_CONFIRMATION] is [false])
    exactly when no token of the command line names the flag [y]; a last
    [-y] skips it, whatever comes before; a last [--y=value] makes the
    program throw, whatever the value. *)
Theorem SKIP_CONFIRMATION_command_line argv :
  (SKIP_CONFIRMATION (parse argv).1 = Return false
   ↔ ∀ arg, arg ∈ argv → flagKey arg ≠ Some "y")
  ∧ SKIP_CONFIRMATION (parse (argv ++ ["-y"])).1 = Return true
  ∧ ∀ v, SKIP_CONFIRMATION (parse (argv ++ ["--y=" ++ v])).1
         = Throw "Flag y is not a boolean".
Proof.
  split_and!.
  - rewrite SKIP_CONFIRMATION_lookup. split.
    + intros H arg Harg Hk.
      assert (is_Some (Flags.map (parse argv).1 !! "y")) as [v Hv]
        by (apply parse_is_Some; eauto).
      rewrite Hv in H. by destruct v.
    + intros Hno.
      assert (Flags.map (parse argv).1 !! "y" = None) as ->; [|done].
      apply eq_None_not_Some. intros (_ & arg & Harg & Hk)%parse_is_Some.
      by apply (Hno arg).
  - rewrite SKIP_CONFIRMATION_lookup, parse_snoc, parseArg_lookup.
    by rewrite decide_True.
  - intros v. rewrite SKIP_CONFIRMATION_lookup, parse_snoc.
    destruct (parse argv) as [flags args].
    rewrite (parseArg_key_value flags args ("--y=" ++ v) "y" v) by done.
    simpl. by rewrite lookup_insert_eq.
Qed.

End FlagsMore.

(** ** [code]: what it keeps and what it ignores *)

Section DedentMore.

Implicit Types (s t w : string) (c : ascii) (strings : TemplateArg)
  (line first : string) (pre rest : list string).

(** A text of white space only: [trimStart] and [trimEnd] both empty it. *)
Lemma trimStart_trimEnd_empty s : trimStart s = "" ↔ trimEnd s = "".
Proof.
  induction s as [|c s IH]; [done|]. cbn [trimStart trimEnd].
  destruct (isWhiteSpace c); simpl; [|done].
  rewrite IH. by destruct (trimEnd s).
Qed.

Lemma trimStart_app_ws s t : trimStart s = "" → trimStart (s ++ t) = trimStart t.
Proof.
  induction s as [|c s IH]; [done|].
  change (String c s ++ t) with (String c (s ++ t)). cbn [trimStart].
  by destruct (isWhiteSpace c).
Qed.

Lemma trimEnd_app_ws s w : trimStart w = "" → trimEnd (s ++ w) = trimEnd s.
Proof.
  intros Hw. induction s as [|c s IH]; [by apply trimStart_trimEnd_empty|].
  change (String c s ++ w) with (String c (s ++ w)). cbn [trimEnd]. by rewrite IH.
Qed.

Lemma trimEnd_app_nonempty s t : trimEnd t ≠ "" → trimEnd (s ++ t) = s ++ trimEnd t.
Proof.
  intros Ht. induction s as [|c s IH]; [done|].
  change (String c s ++ t) with (String c (s ++ t)). cbn [trimEnd]. rewrite IH.
  assert (isEmpty (s ++ trimEnd t) = false) as -> by (by destruct s, (trimEnd t)).
  by rewrite andb_false_r.
Qed.

Lemma split_ws_blank s : trimStart s = "" → Forall isBlank (split LF s).
Proof.
  induction s as [|c s IH]; [by repeat constructor|].
  cbn [trimStart]. destruct (isWhiteSpace c) eqn:Hc; [|done]. intros Hs.
  specialize (IH Hs). simpl. case_decide; [by constructor|].
  split_pieces LF s as h tl E. inversion_clear IH as [|? ? Hh Htl].
  constructor; [|done]. apply trim_empty. cbn [trimStart]. rewrite Hc.
  by apply trim_empty.
Qed.

Lemma join_blank (l : list string) :
  Forall isBlank l → trimStart (join (str LF) l) = "".
Proof.
  induction 1 as [|x l Hx _ IH]; [done|]. apply trim_empty in Hx.
  destruct l as [|y l]; [done|].
  change (join (str LF) (x :: y :: l)) with (x ++ String LF (join (str LF) (y :: l))).
  by rewrite trimStart_app_ws.
Qed.

(** The lines are all blank exactly when the text is white space only. *)
Lemma allLines_blank strings :
  Forall isBlank (allLines strings) ↔ trim (join "" (getTemplateStrings strings)) = "".
Proof.
  unfold allLines. set (text := join "" (getTemplateStrings strings)). split.
  - intros H%join_blank. rewrite join_split in H.
    apply trimStart_trimEnd_empty in H. rewrite trimEnd_idemp in H.
    by apply trim_empty, trimStart_trimEnd_empty.
  - intros H%trim_empty%trimStart_trimEnd_empty. rewrite H.
    by repeat constructor.
Qed.

(** X14: the result of [code] does not start with white space: it has no
    leading blank line and its first line is not indented. *)
Theorem code_no_leading_space strings : trimStart (code strings) = code strings.
Proof.
  destruct (code_shape strings) as [->|(c & r & -> & Hc)]; [done|].
  cbn [trimStart]. by rewrite Hc.
Qed.

(** X15: the result of [code] is empty exactly when the text is made of
    white space only. *)
Theorem code_empty strings :
  code strings = "" ↔ trim (join "" (getTemplateStrings strings)) = "".
Proof.
  rewrite <- allLines_blank. split; [|apply code_blank].
  destruct (lines_cases (allLines strings)) as [?|(pre & first & rest & E & Hpre & Hfirst)];
    [done|].
  rewrite (code_found _ _ _ _ E Hpre Hfirst).
  change (map ?f (first :: rest)) with (f first :: map f rest).
  rewrite slice_leadingWhiteSpace.
  destruct (trimStart_shape first) as [Hs|(c & r & Hs & Hc)];
    [by apply trim_empty in Hs|].
  rewrite Hs.
  by destruct (join_cons_String (str LF) c r
    (map (slice (String.length (leadingWhiteSpace first))) rest)) as [r' ->].
Qed.




(** X17: white space around the text is ignored: lines of white space
    before it and white space after it do not change the result. *)
Theorem code_frame s (before after : string) :
  trimStart before = "" → trimStart after = "" →
  code (before ++ str LF ++ s ++ after) = code s.
Proof.
  intros Hb Ha.
  destruct (decide (trimEnd s = "")) as [Hs|Hs].
  - assert (code s = "") as ->.
    { apply code_blank, allLines_blank. simpl.
      by apply trim_empty, trimStart_trimEnd_empty. }
    apply code_blank, allLines_blank. simpl. apply trim_empty.
    rewrite trimStart_app_ws by done.
    change (str LF ++ s ++ after) with (String LF (s ++ after)).
    cbn [trimStart]. change (isWhiteSpace LF) with true. cbn iota.
    rewrite trimStart_app_ws; [done|]. by apply trimStart_trimEnd_empty.
  - destruct (lines_cases (allLines s)) as [Hall|(pre & first & rest & E & Hpre & Hfirst)].
    { apply allLines_blank in Hall. simpl in Hall.
      by apply trim_empty, trimStart_trimEnd_empty in Hall. }
    rewrite (code_found s _ _ _ E Hpre Hfirst).
    apply (code_found _ (split LF before ++ pre)); [|by apply Forall_app, conj;
      [apply split_ws_blank|]|done].
    unfold allLines in *. simpl getTemplateStrings in *. simpl join in *.
    change (str LF ++ s ++ after) with (String LF (s ++ after)).
    assert (trimEnd (s ++ after) = trimEnd s) as Hsa by by apply trimEnd_app_ws.
    assert (trimEnd (String LF (s ++ after)) = String LF (trimEnd s)) as HLF.
    { cbn [trimEnd]. rewrite Hsa. by destruct (trimEnd s). }
    rewrite trimEnd_app_nonempty by (by rewrite HLF).
    rewrite HLF, split_app_sep, E. by rewrite (assoc_L (++)%list).
Qed.

Lemma code_frame_witness :
  code ("   " ++ str LF ++ ("  a" ++ str LF ++ "   b") ++ (str LF ++ "  "))
  = code ("  a" ++ str LF ++ "   b").
Proof.
  apply (code_frame ("  a" ++ str LF ++ "   b") "   " (str LF ++ "  ")); reflexivity.
Defined.

End DedentMore.

(** ** [json]: what is printed and what is left out *)

Section JsonMore.

(** X19: a property whose value is [undefined] is left out of the text of
    an object, and an [undefined] element of an array is printed as
    [null]. *)
Theorem json_undefined (key : string) (before after : list (string * Value))
    (front back : list Value) :
  json (Object (before ++ (key, Undefined) :: after)) = json (Object (before ++ after))
  ∧ json (Array (front ++ Undefined :: back)) = json (Array (front ++ Null :: back)).
Proof.
  unfold json, stringify. split; simpl.
  - by rewrite !omap_app.
  - by rewrite !map_app.
Qed.

End JsonMore.

(** ** [getGitUser]: the entries it reads *)

Section GitMore.

Implicit Types (k v line : string) (gitConfig : ShellOutput)
  (entries : list (string * string)).

Lemma fromEntries_snoc entries k v :
  fromEntries (entries ++ [(k, v)]) = <[k := v]> (fromEntries entries).
Proof. unfold fromEntries. by rewrite foldl_app. Qed.


Lemma occurs_app c (s t : string) : occurs c (s ++ t) = occurs c s || occurs c t.
Proof.
  induction s as [|d s IH]; [done|].
  change (String d s ++ t) with (String d (s ++ t)). simpl.
  by rewrite IH, orb_assoc.
Qed.

(** X20: [getGitUser] never returns the empty object: the text it reads
    always has a first line, and every line gives an entry. *)
Theorem getGitUser_never_empty gitConfig : getGitUser gitConfig ≠ ∅.
Proof.
  unfold getGitUser.
  destruct (exists_last (split_nonempty LF (trim (nothrowText gitConfig))))
    as (lines & line & ->).
  rewrite map_app. simpl map. rewrite fromEntries_snoc. apply insert_non_empty.
Qed.

(** The value of an entry, cut at its spaces and joined again, is as it
    was. *)
Lemma join_split_space v : join " " (split " " v) = v.
Proof. exact (join_split " "%char v). Qed.




Lemma app_nonempty (s t : string) : t ≠ "" → s ++ t ≠ "".
Proof. by destruct s, t. Qed.

(** X22: when git prints a name and an email, each on its line, the result
    holds exactly the two, under [name] and [email]. *)
Theorem getGitUser_name_email (name email : string) (code : Z) :
  occurs LF name = false → occurs LF email = false →
  trimEnd email = email → email ≠ "" →
  getGitUser {| stdout := "user.name " ++ name ++ str LF
                          ++ "user.email " ++ email ++ str LF;
                exitCode := code |}
  = <["email" := email]> (<["name" := name]> ∅).
Proof.
  intros Hname Hemail Hfixed Hne. unfold getGitUser, nothrowText, trim. simpl stdout.
  assert (trimEnd (email ++ str LF) = email) as E1
    by (by rewrite trimEnd_app_ws).
  assert (trimEnd ("user.email " ++ email ++ str LF) = "user.email " ++ email) as E2
    by (rewrite trimEnd_app_nonempty; by rewrite E1).
  assert (trimEnd (str LF ++ "user.email " ++ email ++ str LF)
          = str LF ++ "user.email " ++ email) as E3.
  { rewrite trimEnd_app_nonempty; rewrite E2; [done|]. by apply app_nonempty. }
  assert (trimEnd (name ++ str LF ++ "user.email " ++ email ++ str LF)
          = name ++ str LF ++ "user.email " ++ email) as E4.
  { rewrite trimEnd_app_nonempty; rewrite E3; [done|]. by apply app_nonempty, app_nonempty. }
  change (trimStart ("user.name " ++ ?t)) with ("user.name " ++ t).
  rewrite trimEnd_app_nonempty; rewrite E4; [|by do 3 apply app_nonempty].
  change ("user.name " ++ name ++ str LF ++ "user.email " ++ email)
    with ("user.name " ++ name ++ String LF ("user.email " ++ email)).
  rewrite string_app_assoc, split_app by (by rewrite occurs_app, Hname).
  rewrite split_whole by (by rewrite occurs_app, Hemail).
  cbn [map].
  change ("user.name " ++ name) with ("user.name" ++ String " " name).
  change ("user.email " ++ email) with ("user.email" ++ String " " email).
  rewrite !split_app by done. cbn [nth tail]. by rewrite !join_split_space.
Qed.

Lemma getGitUser_name_email_witness :
  getGitUser {| stdout := "user.name " ++ "Ada Lovelace" ++ str LF
                          ++ "user.email " ++ "ada@example.org" ++ str LF;
                exitCode := 0 |}
  = <["email" := "ada@example.org"]> (<["name" := "Ada Lovelace"]> ∅).
Proof.
  apply (getGitUser_name_email "Ada Lovelace" "ada@example.org" 0);
    first [reflexivity | discriminate].
Defined.

End GitMore.

(** ** [confirmOrDie] *)

Section ConfirmMore.

Implicit Types (red message answer : string) (options : ConfirmOptions)
  (stderr rest out : list string).

Lemma startsWith_y answer :
  startsWith "y" (toLowerCase answer) = true
  ↔ ∃ r, answer = String "y" r ∨ answer = String "Y" r.
Proof.
  destruct answer as [|c r]; simpl.
  - split; [done|]. by intros (r & [?|?]).
  - rewrite andb_true_iff, bool_decide_eq_true. split.
    + intros [Hc _]. symmetry in Hc. apply lowerChar_y in Hc as [->| ->]; eauto.
    + intros (r' & [[= -> ->]|[= -> ->]]); split;
        first [done | by destruct (toLowerCase r')].
Qed.

(** X23: [confirmOrDie] prints the prompt and reads one line.  It returns
    when the line is empty and an empty answer is allowed, or when the line
    starts with [y] or [Y]; on every other line the process exits with
    code 1.  Nothing is written to the error stream either way. *)
Theorem confirmOrDie_outcome red message options answer rest out stderr :
  let accepted :=
    (acceptDefault options && isEmpty answer) || startsWith "y" (toLowerCase answer) in
  confirmOrDie red message options {| input := answer :: rest; output := out |} stderr
    = Some (if accepted then Fulfilled () else ProcessExit 1,
            {| input := rest; output := (out ++ [message])%list |}, stderr)
  ∧ (accepted = true
     ↔ (acceptDefault options = true ∧ answer = "")
       ∨ ∃ r, answer = String "y" r ∨ answer = String "Y" r).
Proof.
  split.
  - unfold confirmOrDie, confirm, question. cbn [input output].
    destruct (acceptDefault options && isEmpty answer); [done|].
    by destruct (startsWith "y" (toLowerCase answer)).
  - rewrite orb_true_iff, andb_true_iff, isEmpty_true. by rewrite startsWith_y.
Qed.

End ConfirmMore.

(** ** The start of the script: flags, directory name, usage errors *)

Section StartupMore.

Implicit Types (red binName cwd name pm : string) (probablyIsThisProject skip : bool)
  (argv : list string).

Lemma parse_args argv :
  (parse argv).2 = filter (λ arg, startsWith "-" arg = false) argv.
Proof. unfold parse. by rewrite foldl_parseArg_args. Qed.

(** The script up to [if (!directoryName)], by what the flags and the
    positional arguments are. *)
Lemma startup_unfold red binName cwd probablyIsThisProject argv :
  startup red binName cwd probablyIsThisProject argv
  = match SKIP_CONFIRMATION (parse argv).1, PACKAGE_MANAGER (parse argv).1 with
    | Throw e, _ => Threw e
    | Return _, Throw e => Threw e
    | Return skip, Return pm =>
        match directoryName probablyIsThisProject cwd (parse argv).2 with
        | Some (String c s) => Ready (String c s) skip pm
        | _ =>
            if probablyIsThisProject then
              Died [(red ++ "Error: Expected this folder to have a name")%string] 1
            else
              Died [(red ++ join (str LF) [
                       "";
                       "You ran CTSM in a folder that was not already empty!";
                       "You must specify a name of the package to create it";
                       "";
                       "Example: `" ++ binName ++ " my-awesome-library`";
                       ""])%string] 1
        end
    end.
Proof.
  unfold startup. destruct (parse argv) as [flags args]. simpl.
  destruct (SKIP_CONFIRMATION flags); [|done].
  destruct (PACKAGE_MANAGER flags); [|done].
  by destruct (directoryName probablyIsThisProject cwd args) as [[|c s]|],
    probablyIsThisProject.
Qed.

(** X24: whenever the script goes on, the directory name is not empty and
    the package manager is a supported one; the name is the first token of
    the command line that does not start with a dash, or, when there is
    none and the working directory is empty, the working directory. *)
Theorem startup_Ready red binName cwd probablyIsThisProject argv name skip pm :
  startup red binName cwd probablyIsThisProject argv = Ready name skip pm →
  name ≠ "" ∧ pm ∈ packageManagers
  ∧ (head (filter (λ arg, startsWith "-" arg = false) argv) = Some name
     ∨ (filter (λ arg, startsWith "-" arg = false) argv = []
        ∧ probablyIsThisProject = true ∧ name = cwd)).
Proof.
  rewrite startup_unfold. unfold directoryName.
  destruct (SKIP_CONFIRMATION (parse argv).1); [|done].
  rewrite PACKAGE_MANAGER_lookup.
  assert ("bun" ∈ packageManagers) by (apply list_elem_of_In; simpl; auto).
  assert (∀ s, (if bool_decide (s ∈ packageManagers) then s else "bun") ∈ packageManagers)
    as Hpm by (intros s; by case_bool_decide).
  rewrite parse_args.
  destruct (filter _ argv) as [|first others] eqn:Hargs; simpl.
  - destruct (Flags.map (parse argv).1 !! "p") as [[s|b]|]; [|done|];
      destruct probablyIsThisProject; try done; destruct cwd as [|c s']; try done;
      intros [= <- <- <-]; split_and!; auto.
  - destruct (Flags.map (parse argv).1 !! "p") as [[s|b]|]; [|done|];
      destruct first as [|c s']; try (by destruct probablyIsThisProject);
      intros [= <- <- <-]; split_and!; auto.
Qed.

Lemma startup_Ready_witness :
  "my-lib" ≠ "" ∧ "npm" ∈ packageManagers
  ∧ (head (filter (λ arg, startsWith "-" arg = false) ["-y"; "my-lib"; "--p=npm"])
       = Some "my-lib"
     ∨ (filter (λ arg, startsWith "-" arg = false) ["-y"; "my-lib"; "--p=npm"] = []
        ∧ false = true ∧ "my-lib" = "/work")).
Proof.
  apply (startup_Ready "" "ctsm" "/work" false ["-y"; "my-lib"; "--p=npm"] "my-lib" true "npm").
  by vm_compute.
Defined.

(** X25: with no token that does not start with a dash, in a working
    directory that is not empty, the script never goes on: an accessor
    throws, or [die] ends the process with code 1 after one message in red.
    The same holds, in any directory, when the first such token is the
    empty string. *)
Theorem startup_no_name red binName cwd probablyIsThisProject argv :
  (filter (λ arg, startsWith "-" arg = false) argv = [] ∧ probablyIsThisProject = false)
  ∨ head (filter (λ arg, startsWith "-" arg = false) argv) = Some "" →
  match startup red binName cwd probablyIsThisProject argv with
  | Ready _ _ _ => False
  | Died stderr code => code = 1%Z ∧ ∃ text, text ≠ "" ∧ stderr = [(red ++ text)%string]
  | Threw _ => True
  end.
Proof.
  intros Hargs. rewrite startup_unfold. unfold directoryName.
  destruct (SKIP_CONFIRMATION (parse argv).1); [|done].
  destruct (PACKAGE_MANAGER (parse argv).1); [|done].
  rewrite parse_args.
  destruct Hargs as [[-> ->]|Hargs].
  - simpl. split; [done|]. eexists. split; [|reflexivity]. by vm_compute.
  - destruct (filter _ argv) as [|first others]; [done|]. simpl in Hargs.
    injection Hargs as ->. simpl.
    destruct probablyIsThisProject; (split; [done|]);
      (eexists; split; [|reflexivity]); by vm_compute.
Qed.

Lemma startup_no_name_witness :
  match startup "" "ctsm" "/work" false ["-y"] with
  | Ready _ _ _ => False
  | Died stderr code => code = 1%Z ∧ ∃ text, text ≠ "" ∧ stderr = [("" ++ text)%string]
  | Threw _ => True
  end.
Proof. apply (startup_no_name "" "ctsm" "/work" false ["-y"]). left. by split. Defined.

(** X26: a first token without a dash, not empty, is the directory name
    whether the working directory is empty or not; without such a token, in
    an empty working directory, the name is the working directory.  In both
    cases the script goes on as soon as the two flags can be read. *)
Theorem startup_named red binName cwd probablyIsThisProject argv skip pm :
  SKIP_CONFIRMATION (parse argv).1 = Return skip →
  PACKAGE_MANAGER (parse argv).1 = Return pm →
  (∀ name, name ≠ "" →
     head (filter (λ arg, startsWith "-" arg = false) argv) = Some name →
     startup red binName cwd probablyIsThisProject argv = Ready name skip pm)
  ∧ (cwd ≠ "" → filter (λ arg, startsWith "-" arg = false) argv = [] →
     startup red binName cwd true argv = Ready cwd skip pm).
Proof.
  intros Hskip Hpm. split.
  - intros name Hname Hhead. rewrite startup_unfold, Hskip, Hpm. unfold directoryName.
    rewrite parse_args.
    destruct (filter _ argv) as [|first others]; [done|]. simpl in Hhead.
    injection Hhead as ->. simpl. by destruct name.
  - intros Hcwd Hnone. rewrite startup_unfold, Hskip, Hpm. unfold directoryName.
    rewrite parse_args, Hnone. simpl. by destruct cwd.
Qed.

Lemma startup_named_witness :
  (∀ name, name ≠ "" →
     head (filter (λ arg, startsWith "-" arg = false) ["-y"]) = Some name →
     startup "" "ctsm" "/work" true ["-y"] = Ready name true "bun")
  ∧ ("/work" ≠ "" → filter (λ arg, startsWith "-" arg = false) ["-y"] = [] →
     startup "" "ctsm" "/work" true ["-y"] = Ready "/work" true "bun").
Proof. apply (startup_named "" "ctsm" "/work" true ["-y"] true "bun"); reflexivity. Defined.

End StartupMore.
